(** * Softmax and SoftmaxGradient on the CPU context

    A shallow embedding of [caffe2/operators/softmax_op.cc]: the two
    [RunOnDevice] bodies, the tensors they touch and the math primitives
    they call, followed by the properties of the operators.

    Scalars.  The code computes on [float].  Here a scalar is an element
    of an arbitrary type carrying the operations of the code.  The closed
    form of the gradient needs only identities in which nothing is rounded
    ([rounding_free]); the results on sums assume the laws of a
    commutative ring (exact arithmetic); the forward results are stated
    over the real numbers, where [exp], [max] and division live.

    Integers.  Dimensions and element counts are natural numbers, the
    signed [axis] is in [Z].  The locals [N] and [D] of the code are
    [int]: the conversion of the 64-bit counts to [int] and the [int]
    product [i * D] are written out ([int_of], [narrow], [int_mul]), and
    the results that need it assume that N, D and N * D are below 2^31
    ([fits_int]).

    Memory.  A tensor is its dimensions and its storage; a raw pointer is
    a tensor and an offset; an access outside the storage is undefined
    behaviour.  Every call that resizes or is handed a pointer to write
    through is logged, so that what an invocation did, and did not do, can
    be stated.

    Cost.  [CostInferenceForSoftmax], the cost function of the operator
    schema, is embedded with its [uint64_t] arithmetic written out. *)

From Stdlib Require Import List ZArith Arith Lia Bool Ring.
From Stdlib Require Import Reals Lra.
From Stdlib Require Import Permutation.
From Stdlib Require String.
Import ListNotations.
Import String.StringSyntax.
Delimit Scope string_scope with string.

(* ================================================================== *)
(** * Part I: the embedding *)
(* ================================================================== *)

(** ** Outcomes of an invocation *)

(** The error kinds of the operator ([CAFFE_ENFORCE] failures surface as
    exceptions thrown to the caller). *)
Inductive error : Type :=
| InvalidShape
| InvalidAxis
| AllocationFailure.

(** An invocation returns normally, throws, or leaves defined behaviour
    (an access through a raw pointer outside its tensor's storage). *)
Inductive outcome (A : Type) : Type :=
| Done (a : A)
| Throw (e : error)
| Undefined.

Arguments Done {A} a.
Arguments Throw {A} e.
Arguments Undefined {A}.

(** ** Scalars *)

Class Scalar (F : Type) : Type := {
  Fzero : F;
  Fone : F;
  Fadd : F -> F -> F;
  Fmul : F -> F -> F;
  Fsub : F -> F -> F;
  Fopp : F -> F
}.

(** The operations the forward kernel needs besides the ring ones. *)
Class ScalarExp (F : Type) : Type := {
  Fexp : F -> F;
  Fmax : F -> F -> F;
  Fdiv : F -> F -> F
}.

(** What [Resize] leaves in a tensor's storage.  The code fixes only the
    number of elements; which values they hold (kept from before, or
    never written) is up to the allocator, and the results hold for every
    allocator. *)
Class Allocator (F : Type) : Type := {
  resized : nat -> list F -> list F;
  length_resized : forall (n : nat) (old : list F), length (resized n old) = n
}.

(** An allocator that keeps the elements that fit and pads with [pad]. *)
Definition keep_prefix {F : Type} (pad : F) (n : nat) (old : list F) : list F :=
  firstn n old ++ repeat pad (n - length old).

Lemma length_keep_prefix {F : Type} (pad : F) (n : nat) (old : list F) :
  length (keep_prefix pad n old) = n.
Proof.
  unfold keep_prefix. rewrite length_app, length_firstn, repeat_length. lia.
Qed.

Declare Scope scalar_scope.
Delimit Scope scalar_scope with sc.
Notation "x + y" := (Fadd x y) : scalar_scope.
Notation "x * y" := (Fmul x y) : scalar_scope.
Notation "x - y" := (Fsub x y) : scalar_scope.
Notation "- x" := (Fopp x) : scalar_scope.

#[export] Instance Scalar_Z : Scalar Z := {
  Fzero := 0%Z; Fone := 1%Z;
  Fadd := Z.add; Fmul := Z.mul; Fsub := Z.sub; Fopp := Z.opp
}.

#[export] Instance Scalar_R : Scalar R := {
  Fzero := 0%R; Fone := 1%R;
  Fadd := Rplus; Fmul := Rmult; Fsub := Rminus; Fopp := Ropp
}.

#[export] Instance ScalarExp_R : ScalarExp R := {
  Fexp := exp; Fmax := Rmax; Fdiv := Rdiv
}.

(** ** Shapes and the axis collapse *)

(** Product of a tuple of dimensions; the empty product is 1. *)
Definition size_of_dims (ds : list nat) : nat := fold_right Nat.mul 1 ds.

(** Modelled from the spec: [Tensor::size_to_dim] is declared in the tensor
    header, which is not part of the sources; section 4.1 gives
    N = product of the dimensions with index below the canonical axis. *)
Definition size_to_dim_ (k : nat) (ds : list nat) : nat :=
  size_of_dims (firstn k ds).

(** Modelled from the spec: [Tensor::size_from_dim], as above;
    D = product of the dimensions with index at or above the canonical
    axis. *)
Definition size_from_dim_ (k : nat) (ds : list nat) : nat :=
  size_of_dims (skipn k ds).

(** Modelled from the spec: [Tensor::canonical_axis_index], as above; an
    axis a with -r <= a <= r is canonicalized to a when a >= 0 and to
    a + r when a < 0, and an axis out of that range is an error. *)
Definition canonical_axis_index_ (axis_index : Z) (ndims : nat) : outcome nat :=
  let r := Z.of_nat ndims in
  if ((- r <=? axis_index) && (axis_index <=? r))%Z
  then Done (Z.to_nat (if (axis_index <? 0)%Z then axis_index + r else axis_index))
  else Throw InvalidAxis.


(** ** The [int] locals of the code *)

(** [(int) v] for a 64-bit count [v]: the value modulo 2^32, in the range
    from -2^31 to 2^31 - 1. *)
Definition int_of (v : nat) : Z :=
  ((Z.of_nat v + 2 ^ 31) mod 2 ^ 32 - 2 ^ 31)%Z.

(** The size the [int] local of [const int N = v] stands for.  A count
    below 2^31 is kept; a larger one is reduced modulo 2^32 (2^32 rows
    become 0 rows, 2^32 + 2 rows become 2).  When the reduced value is
    negative the code hands it to [Tensor::Resize], which is not part of
    the sources, before it uses it in any other way; a tensor has no
    negative size (spec, section 3), and the model takes it as 0. *)
Definition narrow (v : nat) : nat := Z.to_nat (int_of v).

(** The sizes of an invocation fit the [int] locals: N, D and every
    product [i * D] with i < N. *)
Definition fits_int (N D : nat) : Prop :=
  (Z.of_nat N < 2 ^ 31 /\ Z.of_nat D < 2 ^ 31 /\ Z.of_nat (N * D) < 2 ^ 31)%Z.

(** ** Tensors *)

Section Tensors.
Context {F : Type}.

(** A dense row-major tensor: its dimensions and its storage. *)
Record Tensor : Type := mkTensor {
  dims : list nat;
  storage : list F
}.

(** The element count equals the length of the storage. *)
Definition tensor_wf (t : Tensor) : Prop :=
  length (storage t) = size_of_dims (dims t).

End Tensors.
Arguments Tensor F : clear implicits.

(** ** The machine: blobs, raw pointers and the call trace *)

(** The tensors one operator instance sees: its inputs and output, and the
    scratch members it owns. *)
Inductive blob : Type :=
| Input_0
| Input_1
| Output_0
| scale_
| rowmax_
| sum_multiplier_.

Definition blob_eq_dec (a b : blob) : {a = b} + {a <> b}.
Proof. decide equality. Defined.

(** A raw [float*]: the tensor it points into and the element offset. *)
Record ptr : Type := mkPtr {
  base : blob;
  offset : nat
}.

(** [t.data<float>()] and [t.mutable_data<float>()]. *)
Definition data (b : blob) : ptr := mkPtr b 0.

(** Pointer arithmetic [p + k]. *)
Definition ptr_add (p : ptr) (k : nat) : ptr := mkPtr (base p) (offset p + k).

Notation "p +! k" := (ptr_add p k) (at level 50, left associativity).

Inductive CBLAS_TRANSPOSE : Type :=
| CblasNoTrans
| CblasTrans.

(** One entry per call that resizes a tensor or writes through a pointer,
    in program order. *)
Inductive event : Type :=
| EvResize (b : blob) (shape : list nat)
| EvSet (n : nat) (y : ptr)
| EvCopy (n : nat) (src dst : ptr)
| EvDot (n : nat) (a b y : ptr)
| EvGemm (m n k : nat) (A B C : ptr)
| EvMul (n : nat) (a b y : ptr)
| EvSoftmaxCPU (n d : nat) (x y : ptr).

(** The tensor an event writes to. *)
Definition written (e : event) : blob :=
  match e with
  | EvResize b _ => b
  | EvSet _ y => base y
  | EvCopy _ _ dst => base dst
  | EvDot _ _ _ y => base y
  | EvGemm _ _ _ _ _ C => base C
  | EvMul _ _ _ y => base y
  | EvSoftmaxCPU _ _ _ y => base y
  end.

(** The calls that compute: each reads and writes elements through its
    pointers. *)
Definition is_kernel_call (e : event) : bool :=
  match e with
  | EvCopy _ _ _ | EvDot _ _ _ _ | EvGemm _ _ _ _ _ _ | EvMul _ _ _ _
  | EvSoftmaxCPU _ _ _ _ => true
  | _ => false
  end.

(** The resizes and fills of the tensor [b]. *)
Definition is_setup_of (b : blob) (e : event) : bool :=
  negb (is_kernel_call e) && (if blob_eq_dec (written e) b then true else false).

Section Machine.
Context {F : Type} {SF : Scalar F}.

Record machine : Type := mkMachine {
  in0 : Tensor F;
  in1 : Tensor F;
  out0 : Tensor F;
  m_scale : Tensor F;
  m_rowmax : Tensor F;
  m_sum_multiplier : Tensor F;
  trace : list event
}.

Definition get_blob (b : blob) (m : machine) : Tensor F :=
  match b with
  | Input_0 => in0 m
  | Input_1 => in1 m
  | Output_0 => out0 m
  | scale_ => m_scale m
  | rowmax_ => m_rowmax m
  | sum_multiplier_ => m_sum_multiplier m
  end.

Definition set_blob (b : blob) (t : Tensor F) (m : machine) : machine :=
  match b with
  | Input_0 => mkMachine t (in1 m) (out0 m) (m_scale m) (m_rowmax m) (m_sum_multiplier m) (trace m)
  | Input_1 => mkMachine (in0 m) t (out0 m) (m_scale m) (m_rowmax m) (m_sum_multiplier m) (trace m)
  | Output_0 => mkMachine (in0 m) (in1 m) t (m_scale m) (m_rowmax m) (m_sum_multiplier m) (trace m)
  | scale_ => mkMachine (in0 m) (in1 m) (out0 m) t (m_rowmax m) (m_sum_multiplier m) (trace m)
  | rowmax_ => mkMachine (in0 m) (in1 m) (out0 m) (m_scale m) t (m_sum_multiplier m) (trace m)
  | sum_multiplier_ => mkMachine (in0 m) (in1 m) (out0 m) (m_scale m) (m_rowmax m) t (trace m)
  end.

Definition add_trace (l : list event) (m : machine) : machine :=
  mkMachine (in0 m) (in1 m) (out0 m) (m_scale m) (m_rowmax m) (m_sum_multiplier m)
            (trace m ++ l).

Definition log_event (e : event) (m : machine) : machine := add_trace [e] m.

(** *** The monad of operator code: state and outcome *)

Definition prog (A : Type) : Type := machine -> outcome (A * machine).

Definition ret {A : Type} (a : A) : prog A := fun m => Done (a, m).

Definition bind {A B : Type} (c : prog A) (k : A -> prog B) : prog B :=
  fun m =>
    match c m with
    | Done (a, m') => k a m'
    | Throw e => Throw e
    | Undefined => Undefined
    end.

Definition lift {A : Type} (o : outcome A) : prog A :=
  fun m =>
    match o with
    | Done a => Done (a, m)
    | Throw e => Throw e
    | Undefined => Undefined
    end.

Definition emit (e : event) : prog unit := fun m => Done (tt, log_event e m).

(** [if (c) { body }] *)
Definition when (c : bool) (body : prog unit) : prog unit :=
  if c then body else ret tt.

End Machine.
Arguments machine F : clear implicits.
Arguments prog F A : clear implicits.

Notation "x <- c ;; k" := (bind c (fun x => k))
  (at level 61, c at next level, right associativity).
Notation "c ;; k" := (bind c (fun _ => k))
  (at level 61, right associativity).

(** ** Tensor accessors and raw memory *)

Section Memory.
Context {F : Type} {SF : Scalar F} {UF : Allocator F}.

(** [t.numel()] *)
Definition numel (b : blob) : prog F nat :=
  fun m => Done (size_of_dims (dims (get_blob b m)), m).

(** [t.canonical_axis_index(axis)] *)
Definition canonical_axis_index (b : blob) (axis_index : Z) : prog F nat :=
  fun m =>
    lift (canonical_axis_index_ axis_index (length (dims (get_blob b m)))) m.

(** [t.size_to_dim(k)] *)
Definition size_to_dim (b : blob) (k : nat) : prog F nat :=
  fun m => Done (size_to_dim_ k (dims (get_blob b m)), m).

(** [t.size_from_dim(k)] *)
Definition size_from_dim (b : blob) (k : nat) : prog F nat :=
  fun m => Done (size_from_dim_ k (dims (get_blob b m)), m).

(** [t.Resize(shape)] *)
Definition Resize (b : blob) (shape : list nat) : prog F unit :=
  fun m =>
    let t := get_blob b m in
    Done (tt, set_blob b (mkTensor shape (resized (size_of_dims shape) (storage t)))
                (log_event (EvResize b shape) m)).

(** [t->ResizeLike(src)] *)
Definition ResizeLike (b src : blob) : prog F unit :=
  fun m => Resize b (dims (get_blob src m)) m.

(** The [n] elements at [p], and the machine after the elements [l] are
    written at [p]. *)
Definition peek (p : ptr) (n : nat) (m : machine F) : list F :=
  firstn n (skipn (offset p) (storage (get_blob (base p) m))).

Definition poke (p : ptr) (l : list F) (m : machine F) : machine F :=
  let t := get_blob (base p) m in
  set_blob (base p)
    (mkTensor (dims t)
       (firstn (offset p) (storage t) ++ l ++
        skipn (offset p + length l) (storage t))) m.

(** The elements [offset p], ..., [offset p + n - 1] exist. *)
Definition in_bounds (p : ptr) (n : nat) (m : machine F) : bool :=
  offset p + n <=? length (storage (get_blob (base p) m)).

(** Read [n] elements at [p]; reading past the storage is undefined. *)
Definition load (p : ptr) (n : nat) : prog F (list F) :=
  fun m => if in_bounds p n m then Done (peek p n m, m) else Undefined.

(** Write the elements [l] at [p]; writing past the storage is
    undefined. *)
Definition store (p : ptr) (l : list F) : prog F unit :=
  fun m => if in_bounds p (length l) m then Done (tt, poke p l m) else Undefined.

(** [for (int i = 0; i < n; ++i) body(i)], over the indices in order. *)
Fixpoint for_each (l : list nat) (body : nat -> prog F unit) : prog F unit :=
  match l with
  | [] => ret tt
  | i :: l' => body i ;; for_each l' body
  end.

Definition for_range (n : nat) (body : nat -> prog F unit) : prog F unit :=
  for_each (seq 0 n) body.

(** The [int] product [a * b] of two [int]s that are not negative; signed
    overflow is undefined. *)
Definition int_mul (a b : nat) : prog F nat :=
  fun m =>
    if (Z.of_nat a * Z.of_nat b <? 2 ^ 31)%Z then Done (a * b, m) else Undefined.

End Memory.

(** ** The math primitives *)

Section Math.
Context {F : Type} {SF : Scalar F} {UF : Allocator F}.

(** Sum of [f 0], ..., [f (n-1)], accumulated from the left. *)
Fixpoint big_sum (n : nat) (f : nat -> F) : F :=
  match n with
  | 0 => Fzero
  | S n' => (big_sum n' f + f n')%sc
  end.

(** Inner product of two vectors: the accumulation loop
    [acc += a[k] * b[k]]. *)
Fixpoint dot_acc (acc : F) (a b : list F) : F :=
  match a, b with
  | x :: a', y :: b' => dot_acc (acc + x * y)%sc a' b'
  | _, _ => acc
  end.

Definition dot (a b : list F) : F := dot_acc Fzero a b.

Fixpoint map2 (f : F -> F -> F) (a b : list F) : list F :=
  match a, b with
  | x :: a', y :: b' => f x y :: map2 f a' b'
  | _, _ => []
  end.

(** Element (i, k) of op(A), an m x k matrix stored row-major, and
    element (k, j) of op(B), a k x n matrix. *)
Definition op_at (T : CBLAS_TRANSPOSE) (rows cols : nat) (A : list F) (i j : nat) : F :=
  match T with
  | CblasNoTrans => nth (i * cols + j) A Fzero
  | CblasTrans => nth (j * rows + i) A Fzero
  end.

(** Modelled from the spec: [math::Gemm] is defined in the math utilities,
    which are not part of the sources; C = alpha * op(A) * op(B) + beta * C
    on row-major matrices, C being m x n. *)
Definition gemm (TA TB : CBLAS_TRANSPOSE) (m n k : nat) (alpha : F)
    (A B : list F) (beta : F) (C : list F) : list F :=
  flat_map (fun i =>
    map (fun j =>
      (alpha * big_sum k (fun l => op_at TA m k A i l * op_at TB k n B l j)
       + beta * nth (i * n + j) C Fzero)%sc)
      (seq 0 n))
    (seq 0 m).

(** Modelled from the spec: [math::Set(n, alpha, y)] fills y[0..n) with
    alpha. *)
Definition Set_ (n : nat) (alpha : F) (y : ptr) : prog F unit :=
  emit (EvSet n y) ;;
  store y (repeat alpha n).

(** Modelled from the spec: [context.CopySameDevice(n, src, dst)] copies n
    elements. *)
Definition CopySameDevice (n : nat) (src dst : ptr) : prog F unit :=
  emit (EvCopy n src dst) ;;
  l <- load src n ;;
  store dst l.

(** Modelled from the spec: [math::Dot(n, a, b, y)] stores the inner
    product of a[0..n) and b[0..n) in y[0]. *)
Definition Dot (n : nat) (a b y : ptr) : prog F unit :=
  emit (EvDot n a b y) ;;
  la <- load a n ;;
  lb <- load b n ;;
  store y [dot la lb].

(** Modelled from the spec: [math::Gemm], the scaled matrix product
    accumulated into C in place. *)
Definition Gemm (TA TB : CBLAS_TRANSPOSE) (m n k : nat) (alpha : F)
    (A B : ptr) (beta : F) (C : ptr) : prog F unit :=
  emit (EvGemm m n k A B C) ;;
  la <- load A (m * k) ;;
  lb <- load B (k * n) ;;
  lc <- load C (m * n) ;;
  store C (gemm TA TB m n k alpha la lb beta lc).

(** Modelled from the spec: [math::Mul(n, a, b, y)], the element-wise
    product y[i] = a[i] * b[i]. *)
Definition Mul (n : nat) (a b y : ptr) : prog F unit :=
  emit (EvMul n a b y) ;;
  la <- load a n ;;
  lb <- load b n ;;
  store y (map2 Fmul la lb).

End Math.

(** ** SoftmaxGradientOp<float, CPUContext> *)

Module SoftmaxGradientOp.
Section Op.
Context {F : Type} {SF : Scalar F} {UF : Allocator F}.

(** [bool SoftmaxGradientOp<float, CPUContext>::RunOnDevice()], with the
    member [axis_] as its argument. *)
Definition RunOnDevice (axis_ : Z) : prog F bool :=
  let Y := Input_0 in
  let dY := Input_1 in
  let dX := Output_0 in
  canonical_axis <- canonical_axis_index Y axis_ ;;
  rows <- size_to_dim Y canonical_axis ;;
  let N := narrow rows in
  cols <- size_from_dim Y canonical_axis ;;
  let D := narrow cols in
  (* First, get scales *)
  n_scale <- numel scale_ ;;
  when (negb (n_scale =? N)) (Resize scale_ [N]) ;;
  n_mult <- numel sum_multiplier_ ;;
  when (negb (n_mult =? D))
    (Resize sum_multiplier_ [D] ;;
     Set_ D Fone (data sum_multiplier_)) ;;
  ResizeLike dX Y ;;
  let Ydata := data Y in
  let dYdata := data dY in
  let dXdata := data dX in
  if N =? 0 then ret true
  else
    n <- numel Y ;;
    CopySameDevice n dYdata dXdata ;;
    let scaledata := data scale_ in
    for_range N (fun i =>
      off <- int_mul i D ;;
      Dot D (Ydata +! off) (dYdata +! off) (scaledata +! i)) ;;
    Gemm CblasNoTrans CblasNoTrans N D 1 (- Fone)%sc
         scaledata (data sum_multiplier_) Fone dXdata ;;
    n' <- numel Y ;;
    Mul n' dXdata Ydata dXdata ;;
    ret true.

End Op.
End SoftmaxGradientOp.

(** ** SoftmaxOp<float, CPUContext> *)

Module SoftmaxOp.
Section Op.
Context {F : Type} {SF : Scalar F} {EF : ScalarExp F} {UF : Allocator F}.

(** Maximum of a row; the value for an empty row is never used. *)
Definition row_max (l : list F) : F :=
  match l with
  | [] => Fzero
  | x :: l' => fold_left Fmax l' x
  end.

Definition row_sum (l : list F) : F := fold_left Fadd l Fzero.

(** Modelled from the spec: [SoftmaxCPU] is defined in softmax_shared,
    which is not part of the sources; section 4.2 gives the four passes
    (row maximum, exponential of the shifted entries, row sum, scaling by
    the row sum) and the policy that N = 0 or D = 0 writes nothing.  The
    call below passes [logarithmic = false], the only mode the spec
    describes. *)
Definition SoftmaxCPU (N D : nat) (Xdata Ydata scale sum_multiplier rowmax : ptr)
  : prog F unit :=
  emit (EvSoftmaxCPU N D Xdata Ydata) ;;
  if (N =? 0) || (D =? 0) then ret tt
  else
    for_range N (fun i =>
      row <- load (Xdata +! i * D) D ;;
      store (rowmax +! i) [row_max row]) ;;
    for_range N (fun i =>
      row <- load (Xdata +! i * D) D ;;
      mx <- load (rowmax +! i) 1 ;;
      store (Ydata +! i * D) (map (fun x => Fexp (x - nth 0 mx Fzero)%sc) row)) ;;
    for_range N (fun i =>
      row <- load (Ydata +! i * D) D ;;
      store (scale +! i) [row_sum row]) ;;
    for_range N (fun i =>
      row <- load (Ydata +! i * D) D ;;
      s <- load (scale +! i) 1 ;;
      store (Ydata +! i * D) (map (fun e => Fdiv e (nth 0 s Fzero)) row)).

(** [bool SoftmaxOp<float, CPUContext>::RunOnDevice()], with the member
    [axis_] as its argument. *)
Definition RunOnDevice (axis_ : Z) : prog F bool :=
  let X := Input_0 in
  let Y := Output_0 in
  canonical_axis <- canonical_axis_index X axis_ ;;
  rows <- size_to_dim X canonical_axis ;;
  let N := narrow rows in
  cols <- size_from_dim X canonical_axis ;;
  let D := narrow cols in
  ResizeLike Y X ;;
  let Ydata := data Y in
  (* First, get scales *)
  n_scale <- numel scale_ ;;
  when (negb (n_scale =? N)) (Resize scale_ [N]) ;;
  n_rowmax <- numel rowmax_ ;;
  when (negb (n_rowmax =? N)) (Resize rowmax_ [N]) ;;
  n_mult <- numel sum_multiplier_ ;;
  when (negb (n_mult =? D))
    (Resize sum_multiplier_ [D] ;;
     Set_ D Fone (data sum_multiplier_)) ;;
  SoftmaxCPU N D (data X) Ydata (data scale_) (data sum_multiplier_) (data rowmax_) ;;
  ret true.

End Op.
End SoftmaxOp.

(** ** Operator instances *)

Section Instances.
Context {F : Type} {SF : Scalar F}.

Definition empty_tensor : Tensor F := mkTensor [0] [].

(** A freshly constructed operator with its inputs bound: the scratch
    members hold no element, nothing is logged. *)
Definition fresh (i0 i1 o0 : Tensor F) : machine F :=
  mkMachine i0 i1 o0 empty_tensor empty_tensor empty_tensor [].

(** Between two invocations the caller may rebind inputs and output; the
    members stay with the instance. *)
Definition rebind (i0 i1 o0 : Tensor F) (m : machine F) : machine F :=
  mkMachine i0 i1 o0 (m_scale m) (m_rowmax m) (m_sum_multiplier m) (trace m).

End Instances.

(** ** The (N, D) view and the closed form of the gradient *)

Section View.
Context {F : Type} {SF : Scalar F}.

(** Element (i, j) of a tensor seen as a matrix with [D] columns. *)
Definition entry (t : Tensor F) (D i j : nat) : F :=
  nth (i * D + j) (storage t) Fzero.

(** c_i, the inner product of row i of Y and row i of dY. *)
Definition row_dot (Y dY : Tensor F) (D i : nat) : F :=
  big_sum D (fun k => (entry Y D i k * entry dY D i k)%sc).

(** Sum of row i. *)
Definition row_total (t : Tensor F) (D i : nat) : F :=
  big_sum D (fun j => entry t D i j).




(** The identities behind the closed form of the gradient.  They hold
    in every commutative ring.  They are also the steps of IEEE
    arithmetic in which nothing is rounded (with one NaN, and up to the
    sign of zero): adding to 0 and multiplying by 1 or -1 are exact,
    -x + y is y - x, and the product commutes. *)
Record rounding_free : Prop := {
  add_zero_l : forall x : F, (Fzero + x)%sc = x;
  mul_one_r : forall x : F, (x * Fone)%sc = x;
  mul_one_l : forall x : F, (Fone * x)%sc = x;
  mul_minus_one_l : forall x : F, (- Fone * x)%sc = (- x)%sc;
  add_opp_l : forall x y : F, (- x + y)%sc = (y - x)%sc;
  mul_swap : forall x y : F, (x * y)%sc = (y * x)%sc
}.

(** The members of an instance between invocations: each scratch tensor
    holds as many elements as its shape says, and the ones vector holds
    only 1. *)
Definition instance_ok (m : machine F) : Prop :=
  tensor_wf (m_scale m) /\ tensor_wf (m_rowmax m) /\
  tensor_wf (m_sum_multiplier m) /\
  Forall (eq Fone) (storage (m_sum_multiplier m)).

End View.

(** ** Closed forms of the states an invocation goes through *)

Section ClosedForms.
Context {F : Type} {SF : Scalar F} {UF : Allocator F}.

(** A scratch member after [if (t.numel() != n) t.Resize(n)]. *)
Definition ensure_numel (n : nat) (t : Tensor F) : Tensor F :=
  if size_of_dims (dims t) =? n then t
  else mkTensor [n] (resized (size_of_dims [n]) (storage t)).

(** The ones vector after
    [if (t.numel() != d) { t.Resize(d); math::Set(d, 1.f, ...); }]. *)
Definition ensure_ones (d : nat) (t : Tensor F) : Tensor F :=
  if size_of_dims (dims t) =? d then t else mkTensor [d] (repeat Fone d).

(** The events of either statement: none when the size already fits. *)
Definition ensure_events (b : blob) (n : nat) (t : Tensor F) (fill : bool)
  : list event :=
  if size_of_dims (dims t) =? n then []
  else EvResize b [n] :: (if fill then [EvSet n (data b)] else []).

(** The machine after the first [i] rows of [W] elements of [dst] were
    overwritten by [row 0], ..., [row (i-1)], logging [ev] per row. *)
Definition rows_done (dst : blob) (W : nat) (row : nat -> list F)
    (ev : nat -> list event) (i : nat) (m : machine F) : machine F :=
  set_blob dst
    (mkTensor (dims (get_blob dst m))
       (flat_map row (seq 0 i) ++ skipn (i * W) (storage (get_blob dst m))))
    (add_trace (flat_map ev (seq 0 i)) m).

(** What the gradient operator stores in [scale_[i]]. *)
Definition grad_scale (Y dY : list F) (D i : nat) : F :=
  dot (firstn D (skipn (i * D) Y)) (firstn D (skipn (i * D) dY)).

(** What the gradient operator leaves in dX. *)
Definition grad_dX (N D : nat) (Y dY : list F) : list F :=
  map2 Fmul
    (gemm CblasNoTrans CblasNoTrans N D 1 (- Fone)%sc
       (map (grad_scale Y dY D) (seq 0 N)) (repeat Fone D) Fone
       (firstn (N * D) dY))
    (firstn (N * D) Y).

(** The resizes the gradient operator starts with. *)
Definition grad_prelude_events (N D : nat) (m : machine F) : list event :=
  ensure_events scale_ N (m_scale m) false ++
  ensure_events sum_multiplier_ D (m_sum_multiplier m) true ++
  [EvResize Output_0 (dims (in0 m))].

(** The calls of the gradient operator on a non-empty batch: the copy, one
    dot product per row, the rank-1 update and the product. *)
Definition grad_events (N D : nat) : list event :=
  [EvCopy (N * D) (data Input_1) (data Output_0)] ++
  map (fun i => EvDot D (data Input_0 +! i * D) (data Input_1 +! i * D)
                  (data scale_ +! i)) (seq 0 N) ++
  [EvGemm N D 1 (data scale_) (data sum_multiplier_) (data Output_0);
   EvMul (N * D) (data Output_0) (data Input_0) (data Output_0)].

(** The machine the gradient operator returns in on an empty batch. *)
Definition grad_empty (N D : nat) (m : machine F) : machine F :=
  mkMachine (in0 m) (in1 m)
    (mkTensor (dims (in0 m))
       (resized (size_of_dims (dims (in0 m))) (storage (out0 m))))
    (ensure_numel N (m_scale m))
    (m_rowmax m)
    (ensure_ones D (m_sum_multiplier m))
    (trace m ++ grad_prelude_events N D m).

(** The machine the gradient operator returns in on a non-empty batch. *)
Definition grad_final (N D : nat) (m : machine F) : machine F :=
  mkMachine (in0 m) (in1 m)
    (mkTensor (dims (in0 m)) (grad_dX N D (storage (in0 m)) (storage (in1 m))))
    (mkTensor (dims (ensure_numel N (m_scale m)))
       (map (grad_scale (storage (in0 m)) (storage (in1 m)) D) (seq 0 N)))
    (m_rowmax m)
    (ensure_ones D (m_sum_multiplier m))
    (trace m ++ grad_prelude_events N D m ++ grad_events N D).

(** The resizes the forward operator starts with. *)
Definition fwd_prelude_events (N D : nat) (m : machine F) : list event :=
  [EvResize Output_0 (dims (in0 m))] ++
  ensure_events scale_ N (m_scale m) false ++
  ensure_events rowmax_ N (m_rowmax m) false ++
  ensure_events sum_multiplier_ D (m_sum_multiplier m) true.

(** The machine in which the forward operator calls [SoftmaxCPU]. *)
Definition fwd_ready (N D : nat) (m : machine F) : machine F :=
  mkMachine (in0 m) (in1 m)
    (mkTensor (dims (in0 m))
       (resized (size_of_dims (dims (in0 m))) (storage (out0 m))))
    (ensure_numel N (m_scale m))
    (ensure_numel N (m_rowmax m))
    (ensure_ones D (m_sum_multiplier m))
    (trace m ++ fwd_prelude_events N D m).

End ClosedForms.

Section ForwardClosedForms.
Context {F : Type} {SF : Scalar F} {EF : ScalarExp F} {UF : Allocator F}.

(** Row [i] of a buffer seen as a matrix with [D] columns. *)
Definition row_of (x : list F) (D i : nat) : list F :=
  firstn D (skipn (i * D) x).

(** m_i, the maximum of row i of X. *)
Definition fwd_rowmax (x : list F) (D i : nat) : F :=
  SoftmaxOp.row_max (row_of x D i).

(** e_(i,j) = exp (X[i,j] - m_i), for the j of row i. *)
Definition fwd_exp_row (x : list F) (D i : nat) : list F :=
  map (fun v => Fexp (v - fwd_rowmax x D i)%sc) (row_of x D i).

(** s_i, the sum of the e_(i,j) of row i. *)
Definition fwd_scale (x : list F) (D i : nat) : F :=
  SoftmaxOp.row_sum (fwd_exp_row x D i).

(** Row i of Y: the e_(i,j) divided by s_i. *)
Definition fwd_Y_row (x : list F) (D i : nat) : list F :=
  map (fun e => Fdiv e (fwd_scale x D i)) (fwd_exp_row x D i).

(** The machine the forward operator returns in when N = 0 or D = 0:
    [SoftmaxCPU] was called and wrote nothing. *)
Definition fwd_degenerate (N D : nat) (m : machine F) : machine F :=
  add_trace [EvSoftmaxCPU N D (data Input_0) (data Output_0)] (fwd_ready N D m).

(** The machine the forward operator returns in otherwise. *)
Definition fwd_final (N D : nat) (m : machine F) : machine F :=
  mkMachine (in0 m) (in1 m)
    (mkTensor (dims (in0 m)) (flat_map (fwd_Y_row (storage (in0 m)) D) (seq 0 N)))
    (mkTensor (dims (ensure_numel N (m_scale m)))
       (map (fwd_scale (storage (in0 m)) D) (seq 0 N)))
    (mkTensor (dims (ensure_numel N (m_rowmax m)))
       (map (fwd_rowmax (storage (in0 m)) D) (seq 0 N)))
    (ensure_ones D (m_sum_multiplier m))
    (trace m ++ fwd_prelude_events N D m ++
     [EvSoftmaxCPU N D (data Input_0) (data Output_0)]).

End ForwardClosedForms.

(** ** Specifications of operator code *)

Section Logic.
Context {F : Type} {SF : Scalar F}.

(** [wp c Q m]: from [m] the code [c] returns normally, in a result and
    state that satisfy [Q]. *)
Definition wp {A : Type} (c : prog F A) (Q : A -> machine F -> Prop)
    (m : machine F) : Prop :=
  match c m with
  | Done (a, m') => Q a m'
  | _ => False
  end.

(** [wlp c Q m]: if [c] returns normally from [m], the result and state
    satisfy [Q]. *)
Definition wlp {A : Type} (c : prog F A) (Q : A -> machine F -> Prop)
    (m : machine F) : Prop :=
  match c m with
  | Done (a, m') => Q a m'
  | _ => True
  end.

(** The scratch members keep their shapes and sizes, the ones vector its
    contents, and only computing calls are logged. *)
Definition scratch_kept (m1 m2 : machine F) : Prop :=
  (forall b, dims (get_blob b m2) = dims (get_blob b m1) /\
             length (storage (get_blob b m2)) = length (storage (get_blob b m1))) /\
  m_sum_multiplier m2 = m_sum_multiplier m1 /\
  exists evs, trace m2 = trace m1 ++ evs /\
              Forall (fun e => is_kernel_call e = true) evs.

(** Code that keeps the scratch whenever it returns. *)
Definition keeps {A : Type} (c : prog F A) : Prop :=
  forall m, wlp c (fun _ m' => scratch_kept m m') m.

End Logic.

(** ** The life of an operator instance *)

Section Reachable.
Context {F : Type} {SF : Scalar F} {EF : ScalarExp F} {UF : Allocator F}.

(** The states an instance goes through: constructed, then any number of
    invocations that return, the caller rebinding inputs and output in
    between.  An invocation that throws does so in its first statement
    and leaves the instance as it was.  (An instance is of one operator;
    allowing the steps of both only adds states.) *)
Inductive reachable : machine F -> Prop :=
| reach_fresh (i0 i1 o0 : Tensor F) : reachable (fresh i0 i1 o0)
| reach_rebind (i0 i1 o0 : Tensor F) (m : machine F) :
    reachable m -> reachable (rebind i0 i1 o0 m)
| reach_forward (axis : Z) (m : machine F) (b : bool) (m' : machine F) :
    reachable m -> SoftmaxOp.RunOnDevice axis m = Done (b, m') -> reachable m'
| reach_backward (axis : Z) (m : machine F) (b : bool) (m' : machine F) :
    reachable m -> SoftmaxGradientOp.RunOnDevice axis m = Done (b, m') ->
    reachable m'.

(** After an invocation with collapsed shape (N, D): the row scratch holds
    N elements, the ones vector D elements, each equal to 1. *)
Definition scratch_sized (N D : nat) (m' : machine F) : Prop :=
  length (storage (m_scale m')) = N /\
  storage (m_sum_multiplier m') = repeat Fone D.

(** Among the events [evs] of an invocation from [m], the member [b] is
    resized to [n] elements exactly when it held another number of
    elements, and (with [fill]) is filled exactly then. *)
Definition resized_lazily (b : blob) (n : nat) (fill : bool) (m : machine F)
    (evs : list event) : Prop :=
  filter (is_setup_of b) evs = ensure_events b n (get_blob b m) fill.

End Reachable.

(** ** Concrete operator instances over the integers *)

#[export] Instance Allocator_Z : Allocator Z := {
  resized := keep_prefix 0%Z;
  length_resized := length_keep_prefix 0%Z
}.

(** Y = [[1, 0], [2, -1]] (rows summing to 1) and dY = [[5, 5], [3, 4]]
    (constant along row 0), on a fresh gradient operator. *)
Definition grad_example : machine Z :=
  fresh (mkTensor [2; 2] [1; 0; 2; -1]%Z)
        (mkTensor [2; 2] [5; 5; 3; 4]%Z)
        (mkTensor [0] []).

(** Y of shape (1, 2) and dY of shape (2, 1). *)
Definition grad_mismatch : machine Z :=
  fresh (mkTensor [1; 2] [2; -1]%Z)
        (mkTensor [2; 1] [3; 4]%Z)
        (mkTensor [0] []).

(** Y of shape (0, 3): an empty batch; dX holds elements of an earlier
    invocation. *)
Definition grad_empty_batch : machine Z :=
  fresh (mkTensor [0; 3] [])
        (mkTensor [0; 3] [])
        (mkTensor [2] [8; 9]%Z).

(** ** Concrete operator instances over the reals *)

#[export] Instance Allocator_R : Allocator R := {
  resized := keep_prefix 0%R;
  length_resized := length_keep_prefix 0%R
}.

(** X = [[1, 2, 3]] on a fresh forward operator. *)
Definition fwd_example : machine R :=
  fresh (mkTensor [1; 3] [1; 2; 3]%R) empty_tensor (mkTensor [0] []).

(** An input both operators run on: [[1, 2, 3]] as the X of the forward
    operator and as the Y of the gradient operator, with dY = [[1, 0, 0]]. *)
Definition scratch_example : machine R :=
  fresh (mkTensor [1; 3] [1; 2; 3]%R) (mkTensor [1; 3] [1; 0; 0]%R)
        (mkTensor [0] []).

(** ** What a piece of operator code writes *)

Section Frames.
Context {F : Type} {SF : Scalar F}.

(** [confined w c]: the code [c] throws nothing and, whenever it returns,
    every tensor outside [w] is what it was, shape and elements, and every
    call it logged writes to a tensor of [w]. *)
Definition confined {A : Type} (w : blob -> bool) (c : prog F A) : Prop :=
  forall m,
    match c m with
    | Done (_, m') =>
        (forall b, w b = false -> get_blob b m' = get_blob b m) /\
        exists evs, trace m' = trace m ++ evs /\
                    Forall (fun e => w (written e) = true) evs
    | Throw _ => False
    | Undefined => True
    end.

(** The tensors the kernels of the gradient operator are handed to write
    through, and those of the forward operator. *)
Definition grad_written (b : blob) : bool :=
  match b with
  | Output_0 | scale_ => true
  | _ => false
  end.

Definition fwd_written (b : blob) : bool :=
  match b with
  | Output_0 | scale_ | rowmax_ => true
  | _ => false
  end.

End Frames.

(** ** The cost inference function of the operator schema *)

(** A value stored in a [uint64_t]: arithmetic wraps around at 2^64. *)
Definition uint64 (z : Z) : Z := (z mod 2 ^ 64)%Z.

(** [CAFFE_ENFORCE_EQ(a, b, msg)] passes, or throws [EnforceNotMet] with
    the message. *)
Inductive enforced (A : Type) : Type :=
| Passed (a : A)
| EnforceNotMet (msg : String.string).

Arguments Passed {A} a.
Arguments EnforceNotMet {A} msg.

(** [struct OpSchema::Cost]; each field is a [uint64_t]. *)
Record Cost : Type := mkCost {
  flops : Z;
  bytes_read : Z;
  bytes_written : Z;
  params_bytes : Z
}.

Section CostInference.
Context {OperatorDef DataType : Type}.

(** [TensorShape]: the dimensions (not negative) and the element type
    tag, an enumerator of [TensorProto::DataType]. *)
Record TensorShape : Type := mkTensorShape {
  shape_dims : list nat;
  data_type : DataType
}.

(** [sizeof(X.data_type())]: the size of the enumeration type, whatever
    the enumerator. *)
Variable sizeof_DataType : Z.

(** [OpSchema::Cost CostInferenceForSoftmax(def, in)].  After the check
    [in.size() == 1] the one shape is [in[0]].  The operator definition is
    only handed to an [ArgumentHelper] that is not used.  The free
    function [size_to_dim_(k, dims)] is the product of the first [k]
    dimensions, as [Tensor::size_to_dim]; its result is converted to
    [uint64_t]. *)
Definition CostInferenceForSoftmax (def : OperatorDef) (ins : list TensorShape)
  : enforced Cost :=
  match ins with
  | [X] =>
      let input_size :=
        uint64 (Z.of_nat (size_to_dim_ (length (shape_dims X)) (shape_dims X))) in
      Passed {| flops := input_size;
                bytes_read := uint64 (input_size * sizeof_DataType);
                bytes_written := uint64 (input_size * sizeof_DataType);
                params_bytes := 0 |}
  | _ => EnforceNotMet "Softmax requires one input"%string
  end.

End CostInference.

Arguments TensorShape DataType : clear implicits.

(** ** More concrete operator instances *)

(** Y of shape (1, 2) and a dY that holds one element only. *)
Definition grad_short_dY : machine Z :=
  fresh (mkTensor [1; 2] [2; -1]%Z)
        (mkTensor [1] [3]%Z)
        (mkTensor [0] []).

(** The Y of [grad_example] on an instance that ran before: dY has
    another shape and holds one element more, the scratch members are
    sized, dX holds an element. *)
Definition grad_example_used : machine Z :=
  mkMachine (mkTensor [2; 2] [1; 0; 2; -1]%Z)
            (mkTensor [5] [5; 5; 3; 4; 7]%Z)
            (mkTensor [1] [9]%Z)
            (mkTensor [2] [6; 6]%Z)
            empty_tensor
            (mkTensor [2] [1; 1]%Z)
            [].

(** [fwd_example] after its first invocation, bound to the same input
    again. *)
Definition fwd_example_again : machine R :=
  rebind (in0 fwd_example) empty_tensor (out0 (fwd_final 1 3 fwd_example))
    (fwd_final 1 3 fwd_example).

(** The elements of [fwd_example] under the dimensions (1, 1, 3). *)
Definition fwd_example_3d : machine R :=
  fresh (mkTensor [1; 1; 3] [1; 2; 3]%R) empty_tensor (mkTensor [0] []).

(** Upstream gradients for the Y of [grad_example]:
    [dY_sum] = 2 * [dY_one] + [dY_two], and [dY_shifted] is [dY_one] with
    7 added along row 0 and -2 along row 1. *)
Definition dY_one : Tensor Z := mkTensor [2; 2] [5; 5; 3; 4]%Z.
Definition dY_two : Tensor Z := mkTensor [2; 2] [1; 0; 0; 1]%Z.
Definition dY_sum : Tensor Z := mkTensor [2; 2] [11; 10; 6; 9]%Z.
Definition dY_shifted : Tensor Z := mkTensor [2; 2] [12; 12; 1; 2]%Z.

(** ** Shapes beyond the range of [int] *)

(** 2^32 rows; as an [int] this count is 0. *)
Definition two_pow_32 : nat := Z.to_nat (2 ^ 32).

(** Y of shape (2^32, 1) with every element 1 and dY of that shape with
    every element 5, on a fresh gradient operator; dX has that shape
    already and holds 7 everywhere. *)
Definition grad_beyond_int : machine Z :=
  fresh (mkTensor [two_pow_32; 1] (repeat 1%Z two_pow_32))
        (mkTensor [two_pow_32; 1] (repeat 5%Z two_pow_32))
        (mkTensor [two_pow_32; 1] (repeat 7%Z two_pow_32)).

(** X of shape (2^32, 1) with every element 0, on a fresh forward
    operator; Y has that shape already and holds 7 everywhere. *)
Definition fwd_beyond_int : machine R :=
  fresh (mkTensor [two_pow_32; 1] (repeat 0%R two_pow_32))
        empty_tensor
        (mkTensor [two_pow_32; 1] (repeat 7%R two_pow_32)).

(* ================================================================== *)
(** * Part II: properties *)
(* ================================================================== *)

(** ** The [int] locals *)

Lemma narrow_small (v : nat) : (Z.of_nat v < 2 ^ 31)%Z -> narrow v = v.
Proof.
  intros H. unfold narrow, int_of.
  rewrite Z.mod_small by lia.
  replace (Z.of_nat v + 2 ^ 31 - 2 ^ 31)%Z with (Z.of_nat v) by lia.
  apply Nat2Z.id.
Qed.

Lemma narrow_zero : narrow 0 = 0.
Proof. reflexivity. Qed.

Lemma fits_int_narrow (N D : nat) :
  fits_int N D -> narrow N = N /\ narrow D = D.
Proof. intros (HN & HD & _). split; now apply narrow_small. Qed.

Lemma fits_int_product (N D : nat) :
  1 <= N -> 1 <= D -> (Z.of_nat (N * D) < 2 ^ 31)%Z -> fits_int N D.
Proof. intros HN HD H. repeat split; nia. Qed.

Lemma fits_int_offset (N D i : nat) :
  fits_int N D -> i < N -> (Z.of_nat i * Z.of_nat D < 2 ^ 31)%Z.
Proof. intros (_ & _ & H) Hi. nia. Qed.

Lemma two_pow_32_Z : Z.of_nat two_pow_32 = (2 ^ 32)%Z.
Proof. unfold two_pow_32. apply Z2Nat.id. apply Z.pow_nonneg. lia. Qed.

#[global] Opaque two_pow_32.

Lemma two_pow_32_pos : 0 < two_pow_32.
Proof. pose proof two_pow_32_Z. lia. Qed.

Lemma two_pow_32_beyond_int : ~ (Z.of_nat two_pow_32 < 2 ^ 31)%Z.
Proof. rewrite two_pow_32_Z. lia. Qed.

Lemma narrow_two_pow_32 : narrow two_pow_32 = 0.
Proof. unfold narrow, int_of. rewrite two_pow_32_Z. reflexivity. Qed.

Lemma keep_prefix_same {F : Type} (pad : F) (n : nat) (old : list F) :
  length old = n -> keep_prefix pad n old = old.
Proof.
  intros <-. unfold keep_prefix.
  rewrite firstn_all, Nat.sub_diag. apply app_nil_r.
Qed.

(** The sizes of the shape (2^32, 1): 2^32 elements in 2^32 rows of one
    column; the [int] locals get 0 and 1. *)
Lemma beyond_int_sizes :
  size_of_dims [two_pow_32; 1] = two_pow_32 /\
  size_to_dim_ 1 [two_pow_32; 1] = two_pow_32 /\
  size_from_dim_ 1 [two_pow_32; 1] = 1 /\
  narrow (size_to_dim_ 1 [two_pow_32; 1]) = 0 /\
  narrow (size_from_dim_ 1 [two_pow_32; 1]) = 1.
Proof.
  assert (H1 : size_of_dims [two_pow_32; 1] = two_pow_32).
  { unfold size_of_dims. cbn [fold_right]. lia. }
  assert (H2 : size_to_dim_ 1 [two_pow_32; 1] = two_pow_32).
  { unfold size_to_dim_, size_of_dims. cbn [firstn fold_right]. lia. }
  assert (H3 : size_from_dim_ 1 [two_pow_32; 1] = 1) by reflexivity.
  split; [exact H1|]. split; [exact H2|]. split; [exact H3|]. split.
  - rewrite H2. exact narrow_two_pow_32.
  - rewrite H3. reflexivity.
Qed.

(** ** Lists *)

Section ListFacts.
Context {A : Type}.

Lemma skipn_skipn_add (x y : nat) (l : list A) :
  skipn x (skipn y l) = skipn (y + x) l.
Proof.
  revert l; induction y as [|y IH]; intros l; simpl.
  - reflexivity.
  - destruct l as [|a l]; simpl.
    + now rewrite skipn_nil.
    + apply IH.
Qed.

(** Overwriting the whole of a buffer. *)
Lemma overwrite_all (l s : list A) :
  length l = length s ->
  firstn 0 s ++ l ++ skipn (length l) s = l.
Proof.
  intros H; simpl. rewrite H, skipn_all. apply app_nil_r.
Qed.

(** Overwriting the rows after a written prefix. *)
Lemma overwrite_next (pre rest l : list A) (off : nat) :
  length pre = off ->
  firstn off (pre ++ rest) ++ l ++ skipn (off + length l) (pre ++ rest)
  = (pre ++ l) ++ skipn (length l) rest.
Proof.
  intros <-.
  rewrite firstn_app, firstn_all, Nat.sub_diag, firstn_O, app_nil_r.
  rewrite skipn_app.
  replace (length pre + length l - length pre) with (length l) by lia.
  rewrite skipn_all2 by lia. simpl. now rewrite <- app_assoc.
Qed.

Lemma read_next (pre rest : list A) (off n : nat) :
  length pre = off ->
  firstn n (skipn off (pre ++ rest)) = firstn n rest.
Proof.
  intros <-. rewrite skipn_app, Nat.sub_diag, skipn_all. reflexivity.
Qed.

Lemma flat_map_seq_S (f : nat -> list A) (n : nat) :
  flat_map f (seq 0 (S n)) = flat_map f (seq 0 n) ++ f n.
Proof.
  rewrite seq_S, flat_map_app. simpl. now rewrite app_nil_r.
Qed.

Lemma length_flat_map_rows (f : nat -> list A) (W n : nat) :
  (forall i, i < n -> length (f i) = W) ->
  length (flat_map f (seq 0 n)) = n * W.
Proof.
  induction n as [|n IH]; intros H.
  - reflexivity.
  - rewrite flat_map_seq_S, length_app, IH, H by auto. lia.
Qed.

Lemma nth_flat_map_rows (f : nat -> list A) (W n i j : nat) (d : A) :
  (forall i, i < n -> length (f i) = W) ->
  i < n -> j < W ->
  nth (i * W + j) (flat_map f (seq 0 n)) d = nth j (f i) d.
Proof.
  induction n as [|n IH]; intros Hlen Hi Hj.
  - lia.
  - rewrite flat_map_seq_S.
    assert (Hl : length (flat_map f (seq 0 n)) = n * W)
      by (apply length_flat_map_rows; auto).
    destruct (Nat.eq_dec i n) as [->|Hne].
    + rewrite app_nth2 by lia. rewrite Hl. f_equal. lia.
    + rewrite app_nth1 by nia. apply IH; auto; lia.
Qed.

Lemma nth_map_seq (f : nat -> A) (n j : nat) (d : A) :
  j < n -> nth j (map f (seq 0 n)) d = f j.
Proof.
  intros H. rewrite (nth_indep _ d (f 0)) by (now rewrite length_map, length_seq).
  rewrite map_nth, seq_nth by assumption. reflexivity.
Qed.

Lemma nth_firstn_lt (n j : nat) (l : list A) (d : A) :
  j < n -> nth j (firstn n l) d = nth j l d.
Proof.
  revert j l; induction n as [|n IH]; intros j l H; [lia|].
  destruct l as [|a l]; [now destruct j|].
  destruct j as [|j]; simpl; [reflexivity|]. apply IH; lia.
Qed.

Lemma nth_skipn_add (k j : nat) (l : list A) (d : A) :
  nth j (skipn k l) d = nth (k + j) l d.
Proof.
  revert l; induction k as [|k IH]; intros l; simpl; [reflexivity|].
  destruct l as [|a l]; [now destruct j|]. apply IH.
Qed.

Lemma Forall_eq_repeat (x : A) (l : list A) :
  Forall (eq x) l -> l = repeat x (length l).
Proof.
  induction 1 as [|y l Hy _ IH]; simpl; [reflexivity|]. now rewrite <- Hy, <- IH.
Qed.


End ListFacts.

(** ** Machine states *)

Section MachineFacts.
Context {F : Type} {SF : Scalar F}.

Lemma get_set_same (b : blob) (t : Tensor F) (m : machine F) :
  get_blob b (set_blob b t m) = t.
Proof. destruct b; reflexivity. Qed.

Lemma get_set_other (b b' : blob) (t : Tensor F) (m : machine F) :
  b <> b' -> get_blob b' (set_blob b t m) = get_blob b' m.
Proof. destruct b, b'; intros H; try reflexivity; now elim H. Qed.

Lemma get_add_trace (b : blob) (l : list event) (m : machine F) :
  get_blob b (add_trace l m) = get_blob b m.
Proof. destruct b; reflexivity. Qed.

Lemma set_set_same (b : blob) (t t' : Tensor F) (m : machine F) :
  set_blob b t' (set_blob b t m) = set_blob b t' m.
Proof. destruct b; reflexivity. Qed.

Lemma set_add_trace (b : blob) (t : Tensor F) (l : list event) (m : machine F) :
  set_blob b t (add_trace l m) = add_trace l (set_blob b t m).
Proof. destruct b; reflexivity. Qed.

Lemma add_trace_app (l l' : list event) (m : machine F) :
  add_trace l' (add_trace l m) = add_trace (l ++ l') m.
Proof. unfold add_trace; simpl. now rewrite app_assoc. Qed.

Lemma add_trace_nil (m : machine F) : add_trace [] m = m.
Proof. destruct m; unfold add_trace; simpl. now rewrite app_nil_r. Qed.

Lemma trace_set_blob (b : blob) (t : Tensor F) (m : machine F) :
  trace (set_blob b t m) = trace m.
Proof. destruct b; reflexivity. Qed.

End MachineFacts.

(** ** Weakest preconditions for operator code *)

Section WP.
Context {F : Type} {SF : Scalar F} {UF : Allocator F}.

Lemma wp_conseq {A : Type} (c : prog F A) (Q Q' : A -> machine F -> Prop) m :
  wp c Q m -> (forall a m', Q a m' -> Q' a m') -> wp c Q' m.
Proof.
  unfold wp. destruct (c m) as [[a m']| |]; auto.
Qed.

Lemma wp_ret {A : Type} (a : A) (Q : A -> machine F -> Prop) m :
  Q a m -> wp (ret a) Q m.
Proof. exact (fun H => H). Qed.

Lemma wp_bind {A B : Type} (c : prog F A) (k : A -> prog F B) Q (m : machine F) :
  wp c (fun a m' => wp (k a) Q m') m -> wp (bind c k) Q m.
Proof.
  unfold wp, bind. destruct (c m) as [[a m']| |]; auto.
Qed.

Lemma wp_numel (b : blob) Q (m : machine F) :
  Q (size_of_dims (dims (get_blob b m))) m -> wp (numel b) Q m.
Proof. exact (fun H => H). Qed.

Lemma wp_size_to_dim (b : blob) (k : nat) Q (m : machine F) :
  Q (size_to_dim_ k (dims (get_blob b m))) m -> wp (size_to_dim b k) Q m.
Proof. exact (fun H => H). Qed.

Lemma wp_size_from_dim (b : blob) (k : nat) Q (m : machine F) :
  Q (size_from_dim_ k (dims (get_blob b m))) m -> wp (size_from_dim b k) Q m.
Proof. exact (fun H => H). Qed.

Lemma wp_canonical_axis_index (b : blob) (axis : Z) (k : nat) Q (m : machine F) :
  canonical_axis_index_ axis (length (dims (get_blob b m))) = Done k ->
  Q k m -> wp (canonical_axis_index b axis) Q m.
Proof.
  intros H HQ. unfold wp, canonical_axis_index. now rewrite H.
Qed.

Lemma wp_emit (e : event) Q (m : machine F) :
  Q tt (add_trace [e] m) -> wp (emit e) Q m.
Proof. exact (fun H => H). Qed.

Lemma wp_Resize (b : blob) (shape : list nat) Q (m : machine F) :
  Q tt (set_blob b
          (mkTensor shape (resized (size_of_dims shape) (storage (get_blob b m))))
          (add_trace [EvResize b shape] m)) ->
  wp (Resize b shape) Q m.
Proof. exact (fun H => H). Qed.

Lemma wp_ResizeLike (b src : blob) Q (m : machine F) :
  Q tt (set_blob b
          (mkTensor (dims (get_blob src m))
             (resized (size_of_dims (dims (get_blob src m))) (storage (get_blob b m))))
          (add_trace [EvResize b (dims (get_blob src m))] m)) ->
  wp (ResizeLike b src) Q m.
Proof. exact (fun H => H). Qed.

Lemma wp_load (p : ptr) (n : nat) Q (m : machine F) :
  offset p + n <= length (storage (get_blob (base p) m)) ->
  Q (peek p n m) m ->
  wp (load p n) Q m.
Proof.
  intros H HQ. unfold wp, load, in_bounds.
  apply Nat.leb_le in H. now rewrite H.
Qed.

Lemma wp_store (p : ptr) (l : list F) Q (m : machine F) :
  offset p + length l <= length (storage (get_blob (base p) m)) ->
  Q tt (poke p l m) ->
  wp (store p l) Q m.
Proof.
  intros H HQ. unfold wp, store, in_bounds.
  apply Nat.leb_le in H. now rewrite H.
Qed.

(** The loop rule: an invariant indexed by the number of iterations
    done. *)
Lemma wp_for_each (body : nat -> prog F unit) (Inv : nat -> machine F -> Prop)
    (len s : nat) Q (m : machine F) :
  Inv s m ->
  (forall i m', s <= i < s + len -> Inv i m' ->
     wp (body i) (fun _ m'' => Inv (S i) m'') m') ->
  (forall m', Inv (s + len) m' -> Q tt m') ->
  wp (for_each (seq s len) body) Q m.
Proof.
  revert s m; induction len as [|len IH]; intros s m H0 Hstep Hend; simpl.
  - apply wp_ret, Hend. now rewrite Nat.add_0_r.
  - apply wp_bind. eapply wp_conseq.
    + apply (Hstep s m); [lia | exact H0].
    + intros u m' Hm'. apply IH; auto.
      * intros i m'' Hi. apply Hstep; lia.
      * intros m'' Hm''. apply Hend. now rewrite <- Nat.add_succ_comm.
Qed.

Lemma wp_for_range (body : nat -> prog F unit) (Inv : nat -> machine F -> Prop)
    (n : nat) Q (m : machine F) :
  Inv 0 m ->
  (forall i m', i < n -> Inv i m' -> wp (body i) (fun _ m'' => Inv (S i) m'') m') ->
  (forall m', Inv n m' -> Q tt m') ->
  wp (for_range n body) Q m.
Proof.
  intros H0 Hstep Hend. unfold for_range.
  apply (wp_for_each body Inv n 0); auto.
  intros i m' Hi. apply Hstep; lia.
Qed.

Lemma wp_int_mul (a b : nat) (Q : nat -> machine F -> Prop) (m : machine F) :
  (Z.of_nat a * Z.of_nat b < 2 ^ 31)%Z -> Q (a * b) m -> wp (int_mul a b) Q m.
Proof.
  intros H HQ. unfold wp, int_mul. apply Z.ltb_lt in H. now rewrite H.
Qed.

End WP.

(** ** The math primitives *)

Section MathFacts.
Context {F : Type} {SF : Scalar F} {UF : Allocator F}.

Lemma peek_add_trace (p : ptr) (n : nat) (l : list event) (m : machine F) :
  peek p n (add_trace l m) = peek p n m.
Proof. unfold peek. now rewrite get_add_trace. Qed.

Lemma length_peek (p : ptr) (n : nat) (m : machine F) :
  offset p + n <= length (storage (get_blob (base p) m)) ->
  length (peek p n m) = n.
Proof.
  intros H. unfold peek. rewrite length_firstn, length_skipn. lia.
Qed.

Lemma length_map2 (f : F -> F -> F) (a b : list F) :
  length (map2 f a b) = Nat.min (length a) (length b).
Proof.
  revert b; induction a as [|x a IH]; intros [|y b]; simpl; auto.
Qed.

Lemma nth_map2 (f : F -> F -> F) (a b : list F) (p : nat) (d : F) :
  p < length a -> p < length b ->
  nth p (map2 f a b) d = f (nth p a d) (nth p b d).
Proof.
  revert b p; induction a as [|x a IH]; intros [|y b] p Ha Hb; simpl in *; try lia.
  destruct p as [|p]; [reflexivity|]. apply IH; lia.
Qed.

Lemma length_gemm TA TB (m n k : nat) (alpha beta : F) (A B C : list F) :
  length (gemm TA TB m n k alpha A B beta C) = m * n.
Proof.
  unfold gemm. apply length_flat_map_rows.
  intros i _. now rewrite length_map, length_seq.
Qed.

Lemma nth_gemm TA TB (m n k : nat) (alpha beta : F) (A B C : list F) (i j : nat) :
  i < m -> j < n ->
  nth (i * n + j) (gemm TA TB m n k alpha A B beta C) Fzero
  = (alpha * big_sum k (fun l => op_at TA m k A i l * op_at TB k n B l j)
     + beta * nth (i * n + j) C Fzero)%sc.
Proof.
  intros Hi Hj. unfold gemm.
  rewrite (nth_flat_map_rows _ n m i j) by
    (auto; intros; now rewrite length_map, length_seq).
  now rewrite nth_map_seq.
Qed.

Lemma wp_Set (n : nat) (alpha : F) (y : ptr) (Q : unit -> machine F -> Prop)
    (m : machine F) :
  offset y + n <= length (storage (get_blob (base y) m)) ->
  Q tt (poke y (repeat alpha n) (add_trace [EvSet n y] m)) ->
  wp (Set_ n alpha y) Q m.
Proof.
  intros H HQ. unfold Set_.
  apply wp_bind, wp_emit, wp_store; [|exact HQ].
  now rewrite get_add_trace, repeat_length.
Qed.

Lemma wp_CopySameDevice (n : nat) (src dst : ptr) (Q : unit -> machine F -> Prop)
    (m : machine F) :
  offset src + n <= length (storage (get_blob (base src) m)) ->
  offset dst + n <= length (storage (get_blob (base dst) m)) ->
  Q tt (poke dst (peek src n m) (add_trace [EvCopy n src dst] m)) ->
  wp (CopySameDevice n src dst) Q m.
Proof.
  intros Hs Hd HQ. unfold CopySameDevice.
  apply wp_bind, wp_emit, wp_bind, wp_load; [now rewrite get_add_trace|].
  apply wp_store.
  - rewrite length_peek, get_add_trace by (now rewrite get_add_trace). exact Hd.
  - now rewrite peek_add_trace.
Qed.

Lemma wp_Dot (n : nat) (a b y : ptr) (Q : unit -> machine F -> Prop)
    (m : machine F) :
  offset a + n <= length (storage (get_blob (base a) m)) ->
  offset b + n <= length (storage (get_blob (base b) m)) ->
  offset y + 1 <= length (storage (get_blob (base y) m)) ->
  Q tt (poke y [dot (peek a n m) (peek b n m)] (add_trace [EvDot n a b y] m)) ->
  wp (Dot n a b y) Q m.
Proof.
  intros Ha Hb Hy HQ. unfold Dot.
  apply wp_bind, wp_emit, wp_bind, wp_load; [now rewrite get_add_trace|].
  apply wp_bind, wp_load; [now rewrite get_add_trace|].
  apply wp_store; [now rewrite get_add_trace|].
  now rewrite !peek_add_trace.
Qed.

Lemma wp_Gemm TA TB (r n k : nat) (alpha beta : F) (A B C : ptr) (Q : unit -> machine F -> Prop)
    (m : machine F) :
  offset A + r * k <= length (storage (get_blob (base A) m)) ->
  offset B + k * n <= length (storage (get_blob (base B) m)) ->
  offset C + r * n <= length (storage (get_blob (base C) m)) ->
  Q tt (poke C (gemm TA TB r n k alpha (peek A (r * k) m) (peek B (k * n) m)
                  beta (peek C (r * n) m))
          (add_trace [EvGemm r n k A B C] m)) ->
  wp (Gemm TA TB r n k alpha A B beta C) Q m.
Proof.
  intros HA HB HC HQ. unfold Gemm.
  apply wp_bind, wp_emit, wp_bind, wp_load; [now rewrite get_add_trace|].
  apply wp_bind, wp_load; [now rewrite get_add_trace|].
  apply wp_bind, wp_load; [now rewrite get_add_trace|].
  apply wp_store; [now rewrite length_gemm, get_add_trace|].
  now rewrite !peek_add_trace.
Qed.

Lemma wp_Mul (n : nat) (a b y : ptr) (Q : unit -> machine F -> Prop)
    (m : machine F) :
  offset a + n <= length (storage (get_blob (base a) m)) ->
  offset b + n <= length (storage (get_blob (base b) m)) ->
  offset y + n <= length (storage (get_blob (base y) m)) ->
  Q tt (poke y (map2 Fmul (peek a n m) (peek b n m)) (add_trace [EvMul n a b y] m)) ->
  wp (Mul n a b y) Q m.
Proof.
  intros Ha Hb Hy HQ. unfold Mul.
  apply wp_bind, wp_emit, wp_bind, wp_load; [now rewrite get_add_trace|].
  apply wp_bind, wp_load; [now rewrite get_add_trace|].
  apply wp_store.
  - rewrite length_map2, !length_peek, get_add_trace by (now rewrite get_add_trace).
    now rewrite Nat.min_id.
  - now rewrite !peek_add_trace.
Qed.

End MathFacts.

(** ** Resizing and the loops over rows *)

Ltac msimpl :=
  unfold poke, peek, ptr_add, data;
  cbn [get_blob set_blob add_trace base offset dims storage
       in0 in1 out0 m_scale m_rowmax m_sum_multiplier trace Nat.add skipn].

Ltac msimpl_in H :=
  unfold poke, peek, ptr_add, data in H;
  cbn [get_blob set_blob add_trace base offset dims storage
       in0 in1 out0 m_scale m_rowmax m_sum_multiplier trace Nat.add skipn] in H.

Section RunFacts.
Context {F : Type} {SF : Scalar F} {UF : Allocator F}.

Lemma firstn_fits {A : Type} (n : nat) (l : list A) :
  length l <= n -> firstn n l = l.
Proof. apply firstn_all2. Qed.

Lemma flat_map_singleton {A B : Type} (f : A -> B) (l : list A) :
  flat_map (fun i => [f i]) l = map f l.
Proof. induction l; simpl; congruence. Qed.

Lemma tensor_eta (t : Tensor F) : mkTensor (dims t) (storage t) = t.
Proof. now destruct t. Qed.

Lemma set_get_same (b : blob) (m : machine F) : set_blob b (get_blob b m) m = m.
Proof. destruct m, b; reflexivity. Qed.

Lemma size_split (k : nat) (ds : list nat) :
  size_to_dim_ k ds * size_from_dim_ k ds = size_of_dims ds.
Proof.
  unfold size_to_dim_, size_from_dim_.
  rewrite <- (firstn_skipn k ds) at 3.
  generalize (firstn k ds) (skipn k ds). intros l1 l2.
  induction l1 as [|a l1 IH]; simpl; [lia|]. rewrite <- IH. lia.
Qed.

Lemma length_ensure_numel (n : nat) (t : Tensor F) :
  tensor_wf t -> length (storage (ensure_numel n t)) = n.
Proof.
  unfold ensure_numel, tensor_wf. intros Hwf.
  destruct (size_of_dims (dims t) =? n) eqn:E.
  - apply Nat.eqb_eq in E. congruence.
  - simpl. rewrite length_resized. lia.
Qed.

Lemma wf_ensure_numel (n : nat) (t : Tensor F) :
  tensor_wf t -> tensor_wf (ensure_numel n t).
Proof.
  unfold ensure_numel, tensor_wf. intros Hwf.
  destruct (size_of_dims (dims t) =? n); [exact Hwf|].
  simpl. rewrite length_resized. lia.
Qed.

Lemma storage_ensure_ones (d : nat) (t : Tensor F) :
  tensor_wf t -> Forall (eq Fone) (storage t) ->
  storage (ensure_ones d t) = repeat Fone d.
Proof.
  unfold ensure_ones, tensor_wf. intros Hwf Hall.
  destruct (size_of_dims (dims t) =? d) eqn:E; [|reflexivity].
  apply Nat.eqb_eq in E. rewrite (Forall_eq_repeat _ _ Hall). congruence.
Qed.

Lemma size_ensure_ones (d : nat) (t : Tensor F) :
  size_of_dims (dims (ensure_ones d t)) = d.
Proof.
  unfold ensure_ones.
  destruct (size_of_dims (dims t) =? d) eqn:E.
  - now apply Nat.eqb_eq in E.
  - simpl. lia.
Qed.

Lemma wp_ensure_numel (b : blob) (n : nat) (Q : unit -> machine F -> Prop) m :
  Q tt (set_blob b (ensure_numel n (get_blob b m))
          (add_trace (ensure_events b n (get_blob b m) false) m)) ->
  wp (when (negb (size_of_dims (dims (get_blob b m)) =? n)) (Resize b [n])) Q m.
Proof.
  unfold ensure_numel, ensure_events.
  destruct (size_of_dims (dims (get_blob b m)) =? n); simpl; intros H.
  - apply wp_ret. now rewrite add_trace_nil, set_get_same in H.
  - apply wp_Resize. exact H.
Qed.

Lemma wp_ensure_ones (b : blob) (n : nat) (Q : unit -> machine F -> Prop) m :
  Q tt (set_blob b (ensure_ones n (get_blob b m))
          (add_trace (ensure_events b n (get_blob b m) true) m)) ->
  wp (when (negb (size_of_dims (dims (get_blob b m)) =? n))
        (Resize b [n] ;; Set_ n Fone (data b))) Q m.
Proof.
  unfold ensure_ones, ensure_events.
  destruct (size_of_dims (dims (get_blob b m)) =? n); simpl; intros H.
  - apply wp_ret. now rewrite add_trace_nil, set_get_same in H.
  - apply wp_bind, wp_Resize, wp_Set.
    + simpl. rewrite get_set_same. simpl. rewrite length_resized. lia.
    + unfold poke. simpl base. simpl offset. rewrite get_add_trace, get_set_same.
      cbn [dims storage Nat.add].
      rewrite <- set_add_trace, set_set_same, add_trace_app.
      rewrite overwrite_all; [exact H|].
      rewrite length_resized, repeat_length. simpl; lia.
Qed.

(** A loop that overwrites row [i] of [dst] in iteration [i]. *)
Lemma wp_rows_loop (dst : blob) (W n : nat) (row : nat -> list F)
    (ev : nat -> list event) (body : nat -> prog F unit)
    (Q : unit -> machine F -> Prop) (m : machine F) :
  (forall i, i < n -> length (row i) = W) ->
  (forall i, i < n ->
     forall Q' : unit -> machine F -> Prop,
       Q' tt (poke (mkPtr dst (i * W)) (row i)
                (add_trace (ev i) (rows_done dst W row ev i m))) ->
       wp (body i) Q' (rows_done dst W row ev i m)) ->
  Q tt (rows_done dst W row ev n m) ->
  wp (for_range n body) Q m.
Proof.
  intros Hlen Hbody HQ.
  apply (wp_for_range body (fun i m' => m' = rows_done dst W row ev i m)).
  - unfold rows_done. simpl. now rewrite tensor_eta, add_trace_nil, set_get_same.
  - intros i m' Hi ->. apply Hbody; [exact Hi|].
    unfold rows_done, poke. cbn [base offset].
    rewrite !get_add_trace, !get_set_same. cbn [dims storage].
    rewrite <- !set_add_trace, set_set_same, add_trace_app.
    rewrite (flat_map_seq_S ev), (flat_map_seq_S row).
    rewrite overwrite_next by (apply length_flat_map_rows; intros; apply Hlen; lia).
    rewrite skipn_skipn_add, Hlen by exact Hi.
    replace (S i * W) with (i * W + W) by lia. reflexivity.
  - now intros m' ->.
Qed.

End RunFacts.

(** ** The statements before the kernels *)

Section Preludes.
Context {F : Type} {SF : Scalar F} {UF : Allocator F}.

Lemma wp_bind_eq {A B : Type} (c : prog F A) (k : A -> prog F B)
    (R : outcome (B * machine F)) (m : machine F) :
  wp c (fun a m' => k a m' = R) m -> bind c k m = R.
Proof.
  unfold wp, bind. destruct (c m) as [[a m']| |]; auto; contradiction.
Qed.

Lemma numel_collapsed (m : machine F) (k N D : nat) :
  N = size_to_dim_ k (dims (in0 m)) ->
  D = size_from_dim_ k (dims (in0 m)) ->
  size_of_dims (dims (in0 m)) = N * D.
Proof. intros -> ->. symmetry. apply size_split. Qed.

(** [N] and [D] are the [int] locals of the invocation. *)
Variables (m : machine F) (axis : Z) (k N D : nat).
Hypothesis Hk : canonical_axis_index_ axis (length (dims (in0 m))) = Done k.
Hypothesis HN : N = narrow (size_to_dim_ k (dims (in0 m))).
Hypothesis HD : D = narrow (size_from_dim_ k (dims (in0 m))).

(** The gradient operator up to [dX->ResizeLike(Y)]. *)
Lemma grad_prelude_run :
  SoftmaxGradientOp.RunOnDevice axis m
  = (if N =? 0 then ret true
     else
       n <- numel Input_0 ;;
       CopySameDevice n (data Input_1) (data Output_0) ;;
       for_range N (fun i =>
         off <- int_mul i D ;;
         Dot D (data Input_0 +! off) (data Input_1 +! off)
             (data scale_ +! i)) ;;
       Gemm CblasNoTrans CblasNoTrans N D 1 (- Fone)%sc
            (data scale_) (data sum_multiplier_) Fone (data Output_0) ;;
       n' <- numel Input_0 ;;
       Mul n' (data Output_0) (data Input_0) (data Output_0) ;;
       ret true) (grad_empty N D m).
Proof.
  unfold SoftmaxGradientOp.RunOnDevice.
  apply wp_bind_eq, (wp_canonical_axis_index _ _ k); [exact Hk|].
  apply wp_bind_eq, wp_size_to_dim; cbv beta zeta.
  apply wp_bind_eq, wp_size_from_dim; cbv beta zeta.
  cbn [get_blob]. rewrite <- HN, <- HD.
  apply wp_bind_eq, wp_numel; cbv beta.
  apply wp_bind_eq, wp_ensure_numel; cbv beta.
  apply wp_bind_eq, wp_numel; cbv beta.
  apply wp_bind_eq, wp_ensure_ones; cbv beta.
  apply wp_bind_eq, wp_ResizeLike; cbv beta.
  msimpl. unfold grad_empty, grad_prelude_events.
  rewrite !app_assoc. reflexivity.
Qed.

(** The forward operator up to the call of [SoftmaxCPU]. *)
Lemma fwd_prelude_run {EF : ScalarExp F} :
  SoftmaxOp.RunOnDevice axis m
  = (SoftmaxOp.SoftmaxCPU N D (data Input_0) (data Output_0) (data scale_)
       (data sum_multiplier_) (data rowmax_) ;;
     ret true) (fwd_ready N D m).
Proof.
  unfold SoftmaxOp.RunOnDevice.
  apply wp_bind_eq, (wp_canonical_axis_index _ _ k); [exact Hk|].
  apply wp_bind_eq, wp_size_to_dim; cbv beta zeta.
  apply wp_bind_eq, wp_size_from_dim; cbv beta zeta.
  cbn [get_blob]. rewrite <- HN, <- HD.
  apply wp_bind_eq, wp_ResizeLike; cbv beta.
  apply wp_bind_eq, wp_numel; cbv beta.
  apply wp_bind_eq, wp_ensure_numel; cbv beta.
  apply wp_bind_eq, wp_numel; cbv beta.
  apply wp_bind_eq, wp_ensure_numel; cbv beta.
  apply wp_bind_eq, wp_numel; cbv beta.
  apply wp_bind_eq, wp_ensure_ones; cbv beta.
  msimpl. unfold fwd_ready, fwd_prelude_events.
  rewrite !app_assoc. reflexivity.
Qed.

(** With [int N] equal to 0 the gradient operator returns right after the
    resizes. *)
Lemma grad_run_empty :
  N = 0 ->
  SoftmaxGradientOp.RunOnDevice axis m = Done (true, grad_empty N D m).
Proof.
  intros H0. rewrite grad_prelude_run. now rewrite H0.
Qed.

(** With [int N] or [int D] equal to 0, [SoftmaxCPU] writes nothing. *)
Lemma fwd_run_degenerate {EF : ScalarExp F} :
  N = 0 \/ D = 0 ->
  SoftmaxOp.RunOnDevice axis m = Done (true, fwd_degenerate N D m).
Proof.
  intros H0.
  rewrite fwd_prelude_run.
  apply wp_bind_eq. unfold SoftmaxOp.SoftmaxCPU.
  apply wp_bind, wp_emit.
  replace ((N =? 0) || (D =? 0)) with true.
  - apply wp_ret. reflexivity.
  - symmetry. apply orb_true_iff. now rewrite !Nat.eqb_eq.
Qed.

End Preludes.

(** ** Running the gradient operator *)

Section GradientRun.
Context {F : Type} {SF : Scalar F} {UF : Allocator F}.

(** [N] and [D] are the products of the dimensions, and they fit. *)
Variables (m : machine F) (axis : Z) (k N D : nat).
Hypothesis Hk : canonical_axis_index_ axis (length (dims (in0 m))) = Done k.
Hypothesis HN : N = size_to_dim_ k (dims (in0 m)).
Hypothesis HD : D = size_from_dim_ k (dims (in0 m)).
Hypothesis Hfit : fits_int N D.

Lemma narrowed_rows : N = narrow (size_to_dim_ k (dims (in0 m))).
Proof. rewrite <- HN. symmetry. now apply fits_int_narrow in Hfit. Qed.

Lemma narrowed_cols : D = narrow (size_from_dim_ k (dims (in0 m))).
Proof. rewrite <- HD. symmetry. now apply fits_int_narrow in Hfit. Qed.

(** Non-empty batch: copy, dot products, rank-1 update, product. *)
Lemma grad_run_nonempty :
  N <> 0 ->
  tensor_wf (in0 m) ->
  N * D <= length (storage (in1 m)) ->
  instance_ok m ->
  SoftmaxGradientOp.RunOnDevice axis m = Done (true, grad_final N D m).
Proof.
  intros HN0 HwfY HdY (Hsc & Hrm & Hsm & Hones).
  assert (HND := numel_collapsed m k N D HN HD).
  assert (Hy : length (storage (in0 m)) = N * D) by (rewrite <- HND; exact HwfY).
  rewrite (grad_prelude_run m axis k N D Hk narrowed_rows narrowed_cols).
  destruct (N =? 0) eqn:E; [apply Nat.eqb_eq in E; contradiction|].
  unfold grad_empty.
  (* the copy of dY into dX *)
  apply wp_bind_eq, wp_numel; cbv beta. cbn [get_blob in0 dims]. rewrite HND.
  apply wp_bind_eq, wp_CopySameDevice; msimpl.
  { lia. }
  { rewrite length_resized. lia. }
  rewrite overwrite_all by (rewrite length_resized, length_firstn; lia).
  (* one dot product per row *)
  apply wp_bind_eq.
  apply (wp_rows_loop scale_ 1 N
           (fun i => [grad_scale (storage (in0 m)) (storage (in1 m)) D i])
           (fun i => [EvDot D (data Input_0 +! i * D) (data Input_1 +! i * D)
                        (data scale_ +! i)])).
  { reflexivity. }
  { intros i Hi Q' HQ'. unfold rows_done.
    apply wp_bind, wp_int_mul; [exact (fits_int_offset N D i Hfit Hi)|].
    msimpl. apply wp_Dot; msimpl.
    - nia.
    - nia.
    - rewrite length_app, length_skipn, length_ensure_numel by assumption.
      rewrite (length_flat_map_rows _ 1) by reflexivity. lia.
    - rewrite Nat.mul_1_r in HQ'. unfold grad_scale, rows_done in HQ'.
      msimpl_in HQ'. exact HQ'. }
  unfold rows_done. msimpl. rewrite !flat_map_singleton.
  rewrite skipn_all2 by (rewrite length_ensure_numel by assumption; lia).
  rewrite app_nil_r.
  (* the rank-1 update *)
  apply wp_bind_eq, wp_Gemm; msimpl.
  { rewrite length_map, length_seq. lia. }
  { rewrite storage_ensure_ones, repeat_length by assumption. lia. }
  { rewrite length_firstn. lia. }
  rewrite overwrite_all by (now rewrite length_gemm, length_firstn, Nat.min_l by lia).
  rewrite (firstn_fits _ (map _ _)) by (rewrite length_map, length_seq; lia).
  rewrite storage_ensure_ones by assumption.
  rewrite (firstn_fits _ (repeat _ _)) by (rewrite repeat_length; lia).
  rewrite (firstn_fits _ (firstn _ _)) by (rewrite length_firstn; lia).
  (* the product with Y *)
  apply wp_bind_eq, wp_numel; cbv beta. msimpl. rewrite HND.
  apply wp_bind_eq, wp_Mul; msimpl.
  { rewrite length_gemm. lia. }
  { lia. }
  { rewrite length_gemm. lia. }
  rewrite overwrite_all by
    (rewrite length_map2, !length_firstn, !length_gemm; lia).
  rewrite (firstn_fits _ (gemm _ _ _ _ _ _ _ _ _ _)) by (rewrite length_gemm; lia).
  unfold ret, grad_final, grad_dX, grad_prelude_events, grad_events, data, ptr_add.
  cbn [base offset Nat.add].
  rewrite <- !app_assoc. reflexivity.
Qed.

End GradientRun.

(** ** Sums and inner products *)

Section Sums.
Context {F : Type} {SF : Scalar F}.

Lemma big_sum_ext (n : nat) (f g : nat -> F) :
  (forall k, k < n -> f k = g k) -> big_sum n f = big_sum n g.
Proof.
  induction n as [|n IH]; intros H; simpl; [reflexivity|].
  rewrite IH, H by auto. reflexivity.
Qed.

Lemma dot_acc_snoc (acc x y : F) (a b : list F) :
  length a = length b ->
  dot_acc acc (a ++ [x]) (b ++ [y]) = (dot_acc acc a b + x * y)%sc.
Proof.
  revert acc b; induction a as [|u a IH]; intros acc [|v b] H; simpl in *;
    try discriminate; [reflexivity|].
  apply IH. lia.
Qed.

Lemma firstn_snoc {A : Type} (n : nat) (l : list A) (d : A) :
  n < length l -> firstn (S n) l = firstn n l ++ [nth n l d].
Proof.
  revert l; induction n as [|n IH]; intros [|a l] H; simpl in *; try lia.
  - reflexivity.
  - f_equal. apply IH. lia.
Qed.

(** The accumulation loop of [Dot] computes the sum of the products. *)
Lemma dot_rows (a b : list F) (off n : nat) :
  off + n <= length a -> off + n <= length b ->
  dot (firstn n (skipn off a)) (firstn n (skipn off b))
  = big_sum n (fun k => (nth (off + k) a Fzero * nth (off + k) b Fzero)%sc).
Proof.
  unfold dot. induction n as [|n IH]; intros Ha Hb; simpl big_sum.
  - reflexivity.
  - rewrite (firstn_snoc n (skipn off a) Fzero), (firstn_snoc n (skipn off b) Fzero)
      by (rewrite length_skipn; lia).
    rewrite dot_acc_snoc by (rewrite !length_firstn, !length_skipn; lia).
    rewrite IH, !nth_skipn_add by lia. reflexivity.
Qed.

Lemma nth_repeat_lt {A : Type} (x d : A) (n j : nat) :
  j < n -> nth j (repeat x n) d = x.
Proof.
  revert j; induction n as [|n IH]; intros [|j] H; simpl; try lia; auto.
  apply IH. lia.
Qed.

Lemma grad_scale_row_dot (Y dY : Tensor F) (D i : nat) :
  i * D + D <= length (storage Y) ->
  i * D + D <= length (storage dY) ->
  grad_scale (storage Y) (storage dY) D i = row_dot Y dY D i.
Proof.
  intros HY HdY. unfold grad_scale, row_dot, entry. now apply dot_rows.
Qed.

End Sums.

(** ** The closed form of the gradient *)

Section ExactSteps.
Context {F : Type} {SF : Scalar F}.
Hypothesis Hsteps : rounding_free (F := F).

(** One element of the rank-1 update with the ones vector. *)
Lemma rank1_entry (c x : F) :
  (- Fone * (Fzero + c * Fone) + Fone * x)%sc = (x - c)%sc.
Proof.
  rewrite (mul_one_r Hsteps), (add_zero_l Hsteps), (mul_minus_one_l Hsteps).
  rewrite (mul_one_l Hsteps). apply (add_opp_l Hsteps).
Qed.

(** Element (i, j) of what the gradient operator leaves in dX. *)
Lemma grad_dX_entry (N D : nat) (y dy : list F) (i j : nat) :
  i < N -> j < D -> N * D <= length y -> N * D <= length dy ->
  nth (i * D + j) (grad_dX N D y dy) Fzero
  = (nth (i * D + j) y Fzero
     * (nth (i * D + j) dy Fzero - grad_scale y dy D i))%sc.
Proof.
  intros Hi Hj Hy Hdy. unfold grad_dX.
  assert (Hp : i * D + j < N * D) by nia.
  rewrite nth_map2 by (rewrite ?length_gemm, ?length_firstn; lia).
  rewrite nth_gemm by assumption.
  rewrite !nth_firstn_lt by assumption.
  simpl big_sum. unfold op_at.
  replace (i * 1 + 0) with i by lia.
  rewrite nth_map_seq by assumption.
  rewrite nth_repeat_lt by (simpl; lia).
  rewrite rank1_entry. apply (mul_swap Hsteps).
Qed.

End ExactSteps.

(** ** Exact arithmetic: the laws of a commutative ring *)

Section Algebra.
Context {F : Type} {SF : Scalar F}.
Hypothesis Fring : ring_theory Fzero Fone Fadd Fmul Fsub Fopp (@eq F).

Add Ring Fr : Fring.

Lemma ring_rounding_free : rounding_free (F := F).
Proof. constructor; intros; ring. Qed.

Lemma big_sum_shifted (n : nat) (y d : nat -> F) (c : F) :
  big_sum n (fun j => (y j * (d j - c))%sc)
  = (big_sum n (fun j => (y j * d j)%sc) - c * big_sum n y)%sc.
Proof.
  induction n as [|n IH]; simpl.
  - ring.
  - rewrite IH. ring.
Qed.

Lemma big_sum_scaled (n : nat) (y : nat -> F) (c : F) :
  big_sum n (fun j => (y j * c)%sc) = (c * big_sum n y)%sc.
Proof.
  induction n as [|n IH]; simpl.
  - ring.
  - rewrite IH. ring.
Qed.

End Algebra.

(** ** The gradient operator: results *)

Section GradientResults.
Context {F : Type} {SF : Scalar F} {UF : Allocator F}.
Hypothesis Hsteps : rounding_free (F := F).

Lemma fresh_instance_ok (i0 i1 o0 : Tensor F) : instance_ok (fresh i0 i1 o0).
Proof. repeat split; constructor. Qed.

(** The entries of dX after a run on a non-empty batch, for any dY that
    holds at least the elements the run reads. *)
Lemma grad_run_entries (m : machine F) (axis : Z) (k N D : nat) :
  canonical_axis_index_ axis (length (dims (in0 m))) = Done k ->
  N = size_to_dim_ k (dims (in0 m)) ->
  D = size_from_dim_ k (dims (in0 m)) ->
  fits_int N D ->
  N <> 0 ->
  tensor_wf (in0 m) ->
  N * D <= length (storage (in1 m)) ->
  instance_ok m ->
  SoftmaxGradientOp.RunOnDevice axis m = Done (true, grad_final N D m) /\
  length (storage (out0 (grad_final N D m))) = N * D /\
  forall i j, i < N -> j < D ->
    entry (out0 (grad_final N D m)) D i j
    = (entry (in0 m) D i j
       * (entry (in1 m) D i j - row_dot (in0 m) (in1 m) D i))%sc.
Proof.
  intros Hk HN HD Hfit HN0 HwfY HdY Hok.
  assert (Hy : length (storage (in0 m)) = N * D).
  { rewrite <- (numel_collapsed m k N D HN HD). exact HwfY. }
  split; [now apply (grad_run_nonempty m axis k)|]. split.
  - simpl. unfold grad_dX.
    rewrite length_map2, length_gemm, length_firstn. lia.
  - intros i j Hi Hj. unfold entry at 1. simpl.
    rewrite (grad_dX_entry Hsteps) by (auto; lia).
    rewrite grad_scale_row_dot by nia. reflexivity.
Qed.

End GradientResults.

Section GradientClaims.
Context {F : Type} {SF : Scalar F} {UF : Allocator F}.
Hypothesis Hsteps : rounding_free (F := F).

(** C1, as the code has it.  For N >= 1 and D >= 1 with N * D below 2^31
    (the code keeps N and D in [int]) and all (N, D) matrices Y and dY,
    the gradient operator returns true with dX of the shape of Y, holding
    N * D elements, where dX[i,j] = Y[i,j] * (dY[i,j] - c_i) and
    c_i = sum over k of Y[i,k] * dY[i,k]; the calls it makes are, in
    order, the copy of dY into dX, one dot product per row into the row
    scratch (which ends holding the c_i), the rank-1 update that
    subtracts c_i from row i, and the element-wise product with Y.
    The sum c_i is accumulated from k = 0 upwards, as [Dot] does.  The
    proof uses no law of arithmetic beyond [rounding_free].  The instance
    may be in any of its states: [instance_ok] holds in every reachable
    one ([reachable_ok] below). *)
Theorem backward_formula (m : machine F) (axis : Z) (k N D : nat) :
  canonical_axis_index_ axis (length (dims (in0 m))) = Done k ->
  N = size_to_dim_ k (dims (in0 m)) ->
  D = size_from_dim_ k (dims (in0 m)) ->
  1 <= N -> 1 <= D ->
  (Z.of_nat (N * D) < 2 ^ 31)%Z ->
  tensor_wf (in0 m) -> tensor_wf (in1 m) -> dims (in1 m) = dims (in0 m) ->
  instance_ok m ->
  exists m',
    SoftmaxGradientOp.RunOnDevice axis m = Done (true, m') /\
    dims (out0 m') = dims (in0 m) /\
    length (storage (out0 m')) = N * D /\
    (forall i j, i < N -> j < D ->
       entry (out0 m') D i j
       = (entry (in0 m) D i j
          * (entry (in1 m) D i j - row_dot (in0 m) (in1 m) D i))%sc) /\
    (forall i, i < N ->
       nth i (storage (m_scale m')) Fzero = row_dot (in0 m) (in1 m) D i) /\
    trace m' = trace m ++ grad_prelude_events N D m ++ grad_events N D.
Proof.
  intros Hk HN HD HN1 HD1 Hsize HwfY HwfdY Hdims Hok.
  assert (Hfit := fits_int_product N D HN1 HD1 Hsize).
  assert (Hy : length (storage (in0 m)) = N * D).
  { rewrite <- (numel_collapsed m k N D HN HD). exact HwfY. }
  assert (HdY : N * D <= length (storage (in1 m))).
  { unfold tensor_wf in HwfdY. rewrite HwfdY, Hdims.
    rewrite (numel_collapsed m k N D HN HD). lia. }
  destruct (grad_run_entries Hsteps m axis k N D) as (Hrun & Hlen & Hent);
    auto; [lia|].
  exists (grad_final N D m). repeat split; auto.
  intros i Hi. simpl. rewrite nth_map_seq by exact Hi.
  apply grad_scale_row_dot; nia.
Qed.

(** C4, as the code has it.  The gradient operator does not compare the
    shape of dY with the shape of Y: for every Y whose sizes N, D and
    N * D are below 2^31 and every dY that holds at least as many elements
    as Y, whatever its dimensions, the invocation returns true with dX of
    the shape of Y and dX[i,j] = Y[i,j] * (dY[i,j] - c_i), dY being read
    row-major in the (N, D) layout of Y.  N = 0 and D = 0 are included:
    dX then holds no element. *)
Theorem backward_ignores_shape_of_dY (m : machine F) (axis : Z) (k N D : nat) :
  canonical_axis_index_ axis (length (dims (in0 m))) = Done k ->
  N = size_to_dim_ k (dims (in0 m)) ->
  D = size_from_dim_ k (dims (in0 m)) ->
  fits_int N D ->
  tensor_wf (in0 m) ->
  N * D <= length (storage (in1 m)) ->
  instance_ok m ->
  exists m',
    SoftmaxGradientOp.RunOnDevice axis m = Done (true, m') /\
    dims (out0 m') = dims (in0 m) /\
    length (storage (out0 m')) = N * D /\
    forall i j, i < N -> j < D ->
      entry (out0 m') D i j
      = (entry (in0 m) D i j
         * (entry (in1 m) D i j - row_dot (in0 m) (in1 m) D i))%sc.
Proof.
  intros Hk HN HD Hfit HwfY HdY Hok.
  destruct (Nat.eq_dec N 0) as [HN0|HN0].
  - exists (grad_empty N D m). split.
    + apply (grad_run_empty m axis k); auto.
      * exact (narrowed_rows m k N D HN Hfit).
      * exact (narrowed_cols m k N D HD Hfit).
    + split; [reflexivity|]. split.
      * simpl. rewrite length_resized. now apply (numel_collapsed m k).
      * intros i j Hi. lia.
  - destruct (grad_run_entries Hsteps m axis k N D) as (Hrun & Hlen & Hent);
      auto.
    exists (grad_final N D m). repeat split; auto.
Qed.

End GradientClaims.

Section GradientSums.
Context {F : Type} {SF : Scalar F} {UF : Allocator F}.
Hypothesis Fring : ring_theory Fzero Fone Fadd Fmul Fsub Fopp (@eq F).

Add Ring Fr2 : Fring.

(** C2, as the code has it.  In exact arithmetic (the scalars form a
    commutative ring): for N >= 1, D >= 1 with N * D below 2^31 and all
    (N, D) matrices Y and dY, when every row of Y sums to 1, every row of
    the dX produced by the gradient operator sums to 0. *)
Theorem backward_rows_sum_to_zero (m : machine F) (axis : Z) (k N D : nat) :
  canonical_axis_index_ axis (length (dims (in0 m))) = Done k ->
  N = size_to_dim_ k (dims (in0 m)) ->
  D = size_from_dim_ k (dims (in0 m)) ->
  1 <= N -> 1 <= D ->
  (Z.of_nat (N * D) < 2 ^ 31)%Z ->
  tensor_wf (in0 m) -> tensor_wf (in1 m) -> dims (in1 m) = dims (in0 m) ->
  instance_ok m ->
  (forall i, i < N -> row_total (in0 m) D i = Fone) ->
  exists m',
    SoftmaxGradientOp.RunOnDevice axis m = Done (true, m') /\
    forall i, i < N -> row_total (out0 m') D i = Fzero.
Proof.
  intros Hk HN HD HN1 HD1 Hsize HwfY HwfdY Hdims Hok Hrows.
  assert (Hfit := fits_int_product N D HN1 HD1 Hsize).
  assert (HdY : N * D <= length (storage (in1 m))).
  { unfold tensor_wf in HwfdY. rewrite HwfdY, Hdims.
    rewrite (numel_collapsed m k N D HN HD). lia. }
  destruct (grad_run_entries (ring_rounding_free Fring) m axis k N D) as (Hrun & Hlen & Hent);
    auto; [lia|].
  exists (grad_final N D m). split; [exact Hrun|].
  intros i Hi. unfold row_total.
  rewrite (big_sum_ext D _
             (fun j => (entry (in0 m) D i j
                        * (entry (in1 m) D i j - row_dot (in0 m) (in1 m) D i))%sc))
    by (intros j Hj; now apply Hent).
  rewrite (big_sum_shifted Fring D (fun j => entry (in0 m) D i j)
             (fun j => entry (in1 m) D i j)).
  change (big_sum D (fun j => entry (in0 m) D i j))
    with (row_total (in0 m) D i).
  change (big_sum D (fun j => (entry (in0 m) D i j * entry (in1 m) D i j)%sc))
    with (row_dot (in0 m) (in1 m) D i).
  rewrite Hrows by exact Hi. ring.
Qed.

(** C3, as the code has it.  In exact arithmetic (the scalars form a
    commutative ring): for N >= 1, D >= 1 with N * D below 2^31, when
    every row of Y sums to 1 and dY is constant along row i (dY[i,j] = c
    for every j), the gradient operator produces dX[i,j] = 0 for every j,
    since c_i = c. *)
Theorem backward_of_constant_row (m : machine F) (axis : Z) (k N D : nat) :
  canonical_axis_index_ axis (length (dims (in0 m))) = Done k ->
  N = size_to_dim_ k (dims (in0 m)) ->
  D = size_from_dim_ k (dims (in0 m)) ->
  1 <= N -> 1 <= D ->
  (Z.of_nat (N * D) < 2 ^ 31)%Z ->
  tensor_wf (in0 m) -> tensor_wf (in1 m) -> dims (in1 m) = dims (in0 m) ->
  instance_ok m ->
  (forall i, i < N -> row_total (in0 m) D i = Fone) ->
  exists m',
    SoftmaxGradientOp.RunOnDevice axis m = Done (true, m') /\
    forall (i : nat) (c : F), i < N ->
      (forall j, j < D -> entry (in1 m) D i j = c) ->
      row_dot (in0 m) (in1 m) D i = c /\
      forall j, j < D -> entry (out0 m') D i j = Fzero.
Proof.
  intros Hk HN HD HN1 HD1 Hsize HwfY HwfdY Hdims Hok Hrows.
  assert (Hfit := fits_int_product N D HN1 HD1 Hsize).
  assert (HdY : N * D <= length (storage (in1 m))).
  { unfold tensor_wf in HwfdY. rewrite HwfdY, Hdims.
    rewrite (numel_collapsed m k N D HN HD). lia. }
  destruct (grad_run_entries (ring_rounding_free Fring) m axis k N D) as (Hrun & Hlen & Hent);
    auto; [lia|].
  exists (grad_final N D m). split; [exact Hrun|].
  intros i c Hi Hconst.
  assert (Hc : row_dot (in0 m) (in1 m) D i = c).
  { unfold row_dot.
    rewrite (big_sum_ext D _ (fun j => (entry (in0 m) D i j * c)%sc))
      by (intros j Hj; now rewrite Hconst).
    rewrite (big_sum_scaled Fring D (fun j => entry (in0 m) D i j)).
    change (big_sum D (fun j => entry (in0 m) D i j))
      with (row_total (in0 m) D i).
    rewrite Hrows by exact Hi. ring. }
  split; [exact Hc|].
  intros j Hj. rewrite Hent, Hc, Hconst by assumption. ring.
Qed.

End GradientSums.

Section EmptyBatch.
Context {F : Type} {SF : Scalar F} {UF : Allocator F}.

Lemma Forall_ensure_events (P : event -> Prop) b n (t : Tensor F) fill :
  P (EvResize b [n]) -> P (EvSet n (data b)) ->
  Forall P (ensure_events b n t fill).
Proof.
  intros H1 H2. unfold ensure_events.
  destruct (size_of_dims (dims t) =? n); [constructor|].
  destruct fill; repeat constructor; assumption.
Qed.

(** C5.  For every Y and dY with N = 0 the gradient operator returns
    true; dX has the shape of Y and holds no element; the invocation made
    no call besides the resizes of the scratch members (with the fill of
    the ones vector) and, last, the resize of dX: no copy, no dot
    product, no rank-1 update, no product, and no store into dX. *)
Theorem backward_empty_batch (m : machine F) (axis : Z) (k D : nat) :
  canonical_axis_index_ axis (length (dims (in0 m))) = Done k ->
  size_to_dim_ k (dims (in0 m)) = 0 ->
  D = size_from_dim_ k (dims (in0 m)) ->
  exists m' evs,
    SoftmaxGradientOp.RunOnDevice axis m = Done (true, m') /\
    dims (out0 m') = dims (in0 m) /\
    storage (out0 m') = [] /\
    trace m' = trace m ++ evs ++ [EvResize Output_0 (dims (in0 m))] /\
    Forall (fun e => is_kernel_call e = false /\ written e <> Output_0) evs.
Proof.
  intros Hk HN HD.
  exists (grad_empty 0 (narrow D) m).
  exists (ensure_events scale_ 0 (m_scale m) false ++
          ensure_events sum_multiplier_ (narrow D) (m_sum_multiplier m) true).
  split.
  { apply (grad_run_empty m axis k); auto;
      first [now rewrite HN | now rewrite HD]. }
  split; [reflexivity|]. split; [|split].
  - simpl. rewrite (numel_collapsed m k 0 D) by auto.
    apply length_zero_iff_nil, length_resized.
  - simpl. unfold grad_prelude_events. now rewrite <- app_assoc.
  - apply Forall_app; split; apply Forall_ensure_events;
      (split; [reflexivity | discriminate]).
Qed.

End EmptyBatch.

(** *** The gradient results on concrete inputs *)

Lemma Z_rounding_free : rounding_free (F := Z).
Proof. exact (@ring_rounding_free Z Scalar_Z Zth). Qed.

Lemma grad_example_ok : instance_ok grad_example.
Proof. apply fresh_instance_ok. Defined.

(** The gradient of the 2 x 2 example: c = (5, 2). *)
Example grad_example_run :
  exists m',
    SoftmaxGradientOp.RunOnDevice 1 grad_example = Done (true, m') /\
    out0 m' = mkTensor [2; 2] [0; 0; 2; -2]%Z /\
    m_scale m' = mkTensor [2] [5; 2]%Z /\
    m_sum_multiplier m' = mkTensor [2] [1; 1]%Z.
Proof. eexists. repeat split; vm_compute; reflexivity. Qed.

(** A second invocation on the same shapes resizes and fills nothing. *)
Example grad_second_run :
  exists m1 m2,
    SoftmaxGradientOp.RunOnDevice 1 grad_example = Done (true, m1) /\
    SoftmaxGradientOp.RunOnDevice 1 m1 = Done (true, m2) /\
    filter (is_setup_of scale_) (skipn (length (trace m1)) (trace m2)) = [] /\
    filter (is_setup_of sum_multiplier_)
           (skipn (length (trace m1)) (trace m2)) = [] /\
    out0 m2 = out0 m1.
Proof.
  do 2 eexists.
  split; [vm_compute; reflexivity|].
  split; [vm_compute; reflexivity|].
  split; [reflexivity|]. split; reflexivity.
Qed.

Lemma backward_formula_witness :
  exists m',
    SoftmaxGradientOp.RunOnDevice 1 grad_example = Done (true, m') /\
    dims (out0 m') = [2; 2] /\
    length (storage (out0 m')) = 2 * 2 /\
    (forall i j, i < 2 -> j < 2 ->
       entry (out0 m') 2 i j
       = (entry (in0 grad_example) 2 i j
          * (entry (in1 grad_example) 2 i j
             - row_dot (in0 grad_example) (in1 grad_example) 2 i))%sc) /\
    (forall i, i < 2 ->
       nth i (storage (m_scale m')) Fzero
       = row_dot (in0 grad_example) (in1 grad_example) 2 i) /\
    trace m' = trace grad_example ++ grad_prelude_events 2 2 grad_example
               ++ grad_events 2 2.
Proof.
  apply (@backward_formula Z Scalar_Z Allocator_Z Z_rounding_free grad_example 1 1 2 2);
    try reflexivity; try lia.
  apply grad_example_ok.
Defined.

Lemma grad_example_rows (i : nat) :
  i < 2 -> row_total (in0 grad_example) 2 i = Fone.
Proof.
  intros H. destruct i as [|[|i]]; [reflexivity | reflexivity | lia].
Defined.

Lemma backward_rows_sum_to_zero_witness :
  exists m',
    SoftmaxGradientOp.RunOnDevice 1 grad_example = Done (true, m') /\
    forall i, i < 2 -> row_total (out0 m') 2 i = Fzero.
Proof.
  apply (@backward_rows_sum_to_zero Z Scalar_Z Allocator_Z Zth grad_example 1 1 2 2);
    try reflexivity; try lia.
  - apply grad_example_ok.
  - apply grad_example_rows.
Defined.

Lemma backward_of_constant_row_witness :
  exists m',
    SoftmaxGradientOp.RunOnDevice 1 grad_example = Done (true, m') /\
    forall (i : nat) (c : Z), i < 2 ->
      (forall j, j < 2 -> entry (in1 grad_example) 2 i j = c) ->
      row_dot (in0 grad_example) (in1 grad_example) 2 i = c /\
      forall j, j < 2 -> entry (out0 m') 2 i j = Fzero.
Proof.
  apply (@backward_of_constant_row Z Scalar_Z Allocator_Z Zth grad_example 1 1 2 2);
    try reflexivity; try lia.
  - apply grad_example_ok.
  - apply grad_example_rows.
Defined.

(** C4 as stated fails: with Y of shape (1, 2) and dY of shape (2, 1) the
    invocation does not fail; it returns true and has written dX. *)
Lemma backward_accepts_mismatched_dY :
  dims (in1 grad_mismatch) <> dims (in0 grad_mismatch) /\
  exists m',
    SoftmaxGradientOp.RunOnDevice 1 grad_mismatch = Done (true, m') /\
    out0 m' = mkTensor [1; 2] [2; -2]%Z.
Proof.
  split; [discriminate|].
  eexists. split; vm_compute; reflexivity.
Qed.

Lemma backward_ignores_shape_of_dY_witness :
  exists m',
    SoftmaxGradientOp.RunOnDevice 1 grad_mismatch = Done (true, m') /\
    dims (out0 m') = [1; 2] /\
    length (storage (out0 m')) = 1 * 2 /\
    forall i j, i < 1 -> j < 2 ->
      entry (out0 m') 2 i j
      = (entry (in0 grad_mismatch) 2 i j
         * (entry (in1 grad_mismatch) 2 i j
            - row_dot (in0 grad_mismatch) (in1 grad_mismatch) 2 i))%sc.
Proof.
  apply (@backward_ignores_shape_of_dY Z Scalar_Z Allocator_Z Z_rounding_free grad_mismatch 1 1 1 2);
    try reflexivity; try (simpl; lia).
  - repeat split; simpl; lia.
  - apply fresh_instance_ok.
Defined.

Lemma backward_empty_batch_witness :
  exists m' evs,
    SoftmaxGradientOp.RunOnDevice 1 grad_empty_batch = Done (true, m') /\
    dims (out0 m') = [0; 3] /\
    storage (out0 m') = [] /\
    trace m' = trace grad_empty_batch ++ evs ++ [EvResize Output_0 [0; 3]] /\
    Forall (fun e => is_kernel_call e = false /\ written e <> Output_0) evs.
Proof.
  apply (backward_empty_batch grad_empty_batch 1 1 3); reflexivity.
Defined.

(** *** The gradient operator beyond the range of [int] *)

Lemma first_of_repeat {A : Type} (x d : A) (i : nat) :
  i < two_pow_32 -> nth i (repeat x two_pow_32) d = x.
Proof. intros Hi. apply nth_repeat_lt. exact Hi. Qed.

(** [grad_beyond_int] meets what C1, C2 and C3 ask of Y and dY: 2^32 rows
    of one column, dY of the shape of Y, the rows of Y summing to 1 and
    dY constant (5) along its rows. *)
Lemma grad_beyond_int_input :
  size_to_dim_ 1 (dims (in0 grad_beyond_int)) = two_pow_32 /\
  size_from_dim_ 1 (dims (in0 grad_beyond_int)) = 1 /\
  tensor_wf (in0 grad_beyond_int) /\ tensor_wf (in1 grad_beyond_int) /\
  dims (in1 grad_beyond_int) = dims (in0 grad_beyond_int) /\
  instance_ok grad_beyond_int /\
  (forall i, i < two_pow_32 -> row_total (in0 grad_beyond_int) 1 i = Fone) /\
  (forall i j, i < two_pow_32 -> j < 1 ->
     entry (in1 grad_beyond_int) 1 i j = 5%Z).
Proof.
  destruct beyond_int_sizes as (Hs & HN & HD & _).
  split; [exact HN|]. split; [exact HD|].
  split; [unfold tensor_wf; cbn [grad_beyond_int fresh in0 storage dims];
          rewrite repeat_length, Hs; reflexivity|].
  split; [unfold tensor_wf; cbn [grad_beyond_int fresh in1 storage dims];
          rewrite repeat_length, Hs; reflexivity|].
  split; [cbn [grad_beyond_int fresh in0 in1 dims]; reflexivity|].
  split; [apply fresh_instance_ok|].
  split.
  - intros i Hi. unfold row_total, entry.
    cbn [big_sum grad_beyond_int fresh in0 storage].
    rewrite first_of_repeat by lia. reflexivity.
  - intros i j Hi Hj. unfold entry. cbn [grad_beyond_int fresh in1 storage].
    apply first_of_repeat. lia.
Qed.

(** With the [int] N equal to 0 the invocation returns at [if (N == 0)],
    having made no kernel call, and dX holds what it held. *)
Lemma grad_beyond_int_run :
  SoftmaxGradientOp.RunOnDevice 1 grad_beyond_int
  = Done (true, grad_empty 0 1 grad_beyond_int) /\
  storage (out0 (grad_empty 0 1 grad_beyond_int)) = repeat 7%Z two_pow_32 /\
  Forall (fun e => is_kernel_call e = false)
         (trace (grad_empty 0 1 grad_beyond_int)).
Proof.
  destruct beyond_int_sizes as (Hs & _ & _ & HN & HD).
  split; [|split].
  - apply (grad_run_empty grad_beyond_int 1 1 0 1).
    + reflexivity.
    + symmetry. exact HN.
    + symmetry. exact HD.
    + reflexivity.
  - change (storage (out0 (grad_empty 0 1 grad_beyond_int)))
      with (keep_prefix 0%Z (size_of_dims [two_pow_32; 1]) (repeat 7%Z two_pow_32)).
    rewrite Hs. apply keep_prefix_same, repeat_length.
  - change (trace (grad_empty 0 1 grad_beyond_int))
      with [EvResize sum_multiplier_ [1]; EvSet 1 (data sum_multiplier_);
            EvResize Output_0 [two_pow_32; 1]].
    repeat constructor.
Qed.

(** C1 as stated fails: with Y and dY of shape (2^32, 1) the [int] N is
    0; the invocation returns true without a kernel call, and dX[0,0]
    still holds 7, where the formula gives 1 * (5 - 1 * 5) = 0. *)
Lemma backward_formula_beyond_int :
  (1 <= size_to_dim_ 1 (dims (in0 grad_beyond_int)) /\
   1 <= size_from_dim_ 1 (dims (in0 grad_beyond_int)) /\
   tensor_wf (in0 grad_beyond_int) /\ tensor_wf (in1 grad_beyond_int) /\
   dims (in1 grad_beyond_int) = dims (in0 grad_beyond_int) /\
   instance_ok grad_beyond_int) /\
  exists m',
    SoftmaxGradientOp.RunOnDevice 1 grad_beyond_int = Done (true, m') /\
    entry (out0 m') 1 0 0 = 7%Z /\
    (entry (in0 grad_beyond_int) 1 0 0
     * (entry (in1 grad_beyond_int) 1 0 0
        - row_dot (in0 grad_beyond_int) (in1 grad_beyond_int) 1 0))%sc = 0%Z /\
    Forall (fun e => is_kernel_call e = false) (trace m').
Proof.
  destruct grad_beyond_int_input as (HN & HD & Hw0 & Hw1 & Hd & Hok & _).
  destruct grad_beyond_int_run as (Hrun & HdX & Htr).
  pose proof two_pow_32_pos as Hpos.
  split.
  { rewrite HN, HD. split; [lia|]. split; [lia|].
    split; [exact Hw0|]. split; [exact Hw1|]. split; [exact Hd|exact Hok]. }
  exists (grad_empty 0 1 grad_beyond_int).
  split; [exact Hrun|]. split; [|split; [|exact Htr]].
  - unfold entry. rewrite HdX. apply first_of_repeat. exact Hpos.
  - unfold row_dot, entry.
    cbn [big_sum grad_beyond_int fresh in0 in1 storage].
    rewrite !first_of_repeat by exact Hpos. reflexivity.
Qed.

(** C2 as stated fails: every row of the Y of [grad_beyond_int] sums to
    1, the invocation returns true, and row 0 of dX sums to 7. *)
Lemma backward_rows_beyond_int :
  (1 <= size_to_dim_ 1 (dims (in0 grad_beyond_int)) /\
   1 <= size_from_dim_ 1 (dims (in0 grad_beyond_int)) /\
   tensor_wf (in0 grad_beyond_int) /\ tensor_wf (in1 grad_beyond_int) /\
   dims (in1 grad_beyond_int) = dims (in0 grad_beyond_int) /\
   instance_ok grad_beyond_int /\
   forall i, i < size_to_dim_ 1 (dims (in0 grad_beyond_int)) ->
     row_total (in0 grad_beyond_int) 1 i = Fone) /\
  exists m',
    SoftmaxGradientOp.RunOnDevice 1 grad_beyond_int = Done (true, m') /\
    row_total (out0 m') 1 0 = 7%Z.
Proof.
  destruct grad_beyond_int_input as (HN & HD & Hw0 & Hw1 & Hd & Hok & Hrows & _).
  destruct grad_beyond_int_run as (Hrun & HdX & _).
  pose proof two_pow_32_pos as Hpos.
  split.
  { rewrite HN, HD. split; [lia|]. split; [lia|].
    split; [exact Hw0|]. split; [exact Hw1|]. split; [exact Hd|].
    split; [exact Hok|exact Hrows]. }
  exists (grad_empty 0 1 grad_beyond_int).
  split; [exact Hrun|].
  unfold row_total, entry. cbn [big_sum]. rewrite HdX.
  rewrite first_of_repeat by exact Hpos. reflexivity.
Qed.

(** C3 as stated fails: every row of the Y of [grad_beyond_int] sums to
    1 and dY is 5 all along row 0, the invocation returns true, and
    dX[0,0] is 7, not 0. *)
Lemma backward_of_constant_row_beyond_int :
  (1 <= size_to_dim_ 1 (dims (in0 grad_beyond_int)) /\
   1 <= size_from_dim_ 1 (dims (in0 grad_beyond_int)) /\
   tensor_wf (in0 grad_beyond_int) /\ tensor_wf (in1 grad_beyond_int) /\
   dims (in1 grad_beyond_int) = dims (in0 grad_beyond_int) /\
   instance_ok grad_beyond_int /\
   (forall i, i < size_to_dim_ 1 (dims (in0 grad_beyond_int)) ->
      row_total (in0 grad_beyond_int) 1 i = Fone) /\
   (forall j, j < 1 -> entry (in1 grad_beyond_int) 1 0 j = 5%Z)) /\
  exists m',
    SoftmaxGradientOp.RunOnDevice 1 grad_beyond_int = Done (true, m') /\
    entry (out0 m') 1 0 0 = 7%Z /\
    entry (out0 m') 1 0 0 <> Fzero.
Proof.
  destruct grad_beyond_int_input as (HN & HD & Hw0 & Hw1 & Hd & Hok & Hrows & Hc).
  destruct grad_beyond_int_run as (Hrun & HdX & _).
  pose proof two_pow_32_pos as Hpos.
  split.
  { rewrite HN, HD. split; [lia|]. split; [lia|].
    split; [exact Hw0|]. split; [exact Hw1|]. split; [exact Hd|].
    split; [exact Hok|]. split; [exact Hrows|].
    intros j Hj. apply Hc; [exact Hpos|exact Hj]. }
  exists (grad_empty 0 1 grad_beyond_int).
  split; [exact Hrun|].
  assert (E : entry (out0 (grad_empty 0 1 grad_beyond_int)) 1 0 0 = 7%Z).
  { unfold entry. rewrite HdX. apply first_of_repeat. exact Hpos. }
  split; [exact E|]. rewrite E. discriminate.
Qed.

(** ** The axis collapse *)

Section Collapse.





End Collapse.

Section CollapseClaim.
Context {F : Type} {SF : Scalar F} {EF : ScalarExp F} {UF : Allocator F}.


End CollapseClaim.


(** ** The rank-1 update and the nested loop *)

Section Broadcast.
Context {F : Type} {SF : Scalar F}.






End Broadcast.

Section BroadcastClaim.
Context {F : Type} {SF : Scalar F} {UF : Allocator F}.
Hypothesis Hsteps : rounding_free (F := F).



End BroadcastClaim.


(** ** Partial correctness: what holds whenever an invocation returns *)

Section Partial.
Context {F : Type} {SF : Scalar F} {UF : Allocator F}.

Lemma wlp_elim {A : Type} (c : prog F A) (Q : A -> machine F -> Prop) m a m' :
  wlp c Q m -> c m = Done (a, m') -> Q a m'.
Proof. unfold wlp. intros H E. now rewrite E in H. Qed.

Lemma wlp_any {A : Type} (c : prog F A) (Q : A -> machine F -> Prop) m :
  (forall a m', Q a m') -> wlp c Q m.
Proof. unfold wlp. destruct (c m) as [[a m']| |]; auto. Qed.

Lemma wlp_ret {A : Type} (a : A) (Q : A -> machine F -> Prop) m :
  Q a m -> wlp (ret a) Q m.
Proof. exact (fun H => H). Qed.

Lemma wlp_bind {A B : Type} (c : prog F A) (k : A -> prog F B) Q m :
  wlp c (fun a m' => wlp (k a) Q m') m -> wlp (bind c k) Q m.
Proof.
  unfold wlp, bind. destruct (c m) as [[a m']| |]; auto.
Qed.

Lemma wlp_conseq {A : Type} (c : prog F A) (Q Q' : A -> machine F -> Prop) m :
  wlp c Q m -> (forall a m', Q a m' -> Q' a m') -> wlp c Q' m.
Proof.
  unfold wlp. destruct (c m) as [[a m']| |]; auto.
Qed.

Lemma kept_refl (m : machine F) : scratch_kept m m.
Proof.
  repeat split; auto. exists []. split; [now rewrite app_nil_r | constructor].
Qed.

Lemma kept_trans (m1 m2 m3 : machine F) :
  scratch_kept m1 m2 -> scratch_kept m2 m3 -> scratch_kept m1 m3.
Proof.
  intros (H1 & S1 & e1 & T1 & F1) (H2 & S2 & e2 & T2 & F2).
  split; [|split].
  - intros b. destruct (H1 b), (H2 b). split; congruence.
  - congruence.
  - exists (e1 ++ e2). split.
    + now rewrite T2, T1, app_assoc.
    + now apply Forall_app.
Qed.

Lemma keeps_ret {A : Type} (a : A) : keeps (F := F) (ret a).
Proof. intros m. apply kept_refl. Qed.

Lemma keeps_bind {A B : Type} (c : prog F A) (k : A -> prog F B) :
  keeps c -> (forall a, keeps (k a)) -> keeps (bind c k).
Proof.
  intros Hc Hk m. apply wlp_bind.
  eapply wlp_conseq; [apply Hc|]. intros a m1 H1. simpl in H1.
  eapply wlp_conseq; [apply Hk|]. intros b m2 H2. simpl in H2.
  eapply kept_trans; eassumption.
Qed.

Lemma keeps_numel (b : blob) : keeps (F := F) (numel b).
Proof. intros m. apply kept_refl. Qed.

Lemma keeps_load (p : ptr) (n : nat) : keeps (F := F) (load p n).
Proof.
  intros m. unfold wlp, load. destruct (in_bounds p n m); [apply kept_refl|exact I].
Qed.

Lemma keeps_emit (e : event) :
  is_kernel_call e = true -> keeps (F := F) (emit e).
Proof.
  intros He m. unfold wlp, emit, log_event.
  split; [|split].
  - intros b. now rewrite get_add_trace.
  - reflexivity.
  - exists [e]. split; [reflexivity | now constructor].
Qed.

Lemma keeps_store (p : ptr) (l : list F) :
  base p <> sum_multiplier_ -> keeps (store p l).
Proof.
  intros Hp m. unfold wlp, store, in_bounds.
  destruct (offset p + length l <=? length (storage (get_blob (base p) m))) eqn:E;
    [|exact I].
  apply Nat.leb_le in E. unfold poke. split; [|split].
  - intros b. destruct (blob_eq_dec (base p) b) as [<-|Hne].
    + rewrite get_set_same. simpl. split; [reflexivity|].
      rewrite !length_app, length_firstn, length_skipn. lia.
    + now rewrite get_set_other.
  - change (m_sum_multiplier ?x) with (get_blob sum_multiplier_ x).
    now rewrite get_set_other.
  - exists []. split; [|constructor].
    now rewrite trace_set_blob, app_nil_r.
Qed.

Lemma keeps_for_each (l : list nat) (body : nat -> prog F unit) :
  (forall i, keeps (body i)) -> keeps (for_each l body).
Proof.
  intros Hb. induction l as [|i l IH]; simpl.
  - apply keeps_ret.
  - apply keeps_bind; auto.
Qed.

Lemma keeps_for_range (n : nat) (body : nat -> prog F unit) :
  (forall i, keeps (body i)) -> keeps (for_range n body).
Proof. apply keeps_for_each. Qed.

Lemma keeps_if {A : Type} (c : bool) (p q : prog F A) :
  keeps p -> keeps q -> keeps (if c then p else q).
Proof. now destruct c. Qed.

Lemma keeps_int_mul (a b : nat) : keeps (F := F) (int_mul a b).
Proof.
  intros m. unfold wlp, int_mul.
  destruct (Z.of_nat a * Z.of_nat b <? 2 ^ 31)%Z; [apply kept_refl|exact I].
Qed.

End Partial.

Create HintDb keeps.
#[export] Hint Resolve keeps_ret keeps_bind keeps_numel keeps_load keeps_emit
  keeps_store keeps_for_range keeps_if keeps_int_mul : keeps.
#[export] Hint Extern 1 (_ <> _) => (simpl; discriminate) : keeps.
#[export] Hint Extern 1 (is_kernel_call _ = true) => reflexivity : keeps.

Section PartialKernels.
Context {F : Type} {SF : Scalar F} {UF : Allocator F}.

Lemma keeps_CopySameDevice (n : nat) (src dst : ptr) :
  base dst <> sum_multiplier_ -> keeps (@CopySameDevice F n src dst).
Proof. intros H. unfold CopySameDevice. auto 10 with keeps. Qed.

Lemma keeps_Dot (n : nat) (a b y : ptr) :
  base y <> sum_multiplier_ -> keeps (@Dot F SF n a b y).
Proof. intros H. unfold Dot. auto 10 with keeps. Qed.

Lemma keeps_Gemm TA TB (r n k : nat) (alpha beta : F) (A B C : ptr) :
  base C <> sum_multiplier_ -> keeps (Gemm TA TB r n k alpha A B beta C).
Proof. intros H. unfold Gemm. auto 12 with keeps. Qed.

Lemma keeps_Mul (n : nat) (a b y : ptr) :
  base y <> sum_multiplier_ -> keeps (@Mul F SF n a b y).
Proof. intros H. unfold Mul. auto 10 with keeps. Qed.

End PartialKernels.

#[export] Hint Resolve keeps_CopySameDevice keeps_Dot keeps_Gemm keeps_Mul : keeps.


(** ** The scratch members across an invocation *)

Section Scratch.
Context {F : Type} {SF : Scalar F} {EF : ScalarExp F} {UF : Allocator F}.

Lemma keeps_SoftmaxCPU (N D : nat) (Xdata Ydata scale sum_multiplier rowmax : ptr) :
  base Ydata <> sum_multiplier_ ->
  base scale <> sum_multiplier_ ->
  base rowmax <> sum_multiplier_ ->
  keeps (SoftmaxOp.SoftmaxCPU N D Xdata Ydata scale sum_multiplier rowmax).
Proof.
  intros HY Hs Hr. unfold SoftmaxOp.SoftmaxCPU.
  apply keeps_bind; [auto with keeps|]. intros _.
  apply keeps_if; [auto with keeps|].
  repeat (apply keeps_bind; [|intros _]);
    apply keeps_for_range; intros i; auto 10 with keeps.
Qed.

Lemma filter_kernel_calls (b : blob) (evs : list event) :
  Forall (fun e => is_kernel_call e = true) evs ->
  filter (is_setup_of b) evs = [].
Proof.
  induction 1 as [|e evs He _ IH]; simpl; [reflexivity|].
  unfold is_setup_of at 1. now rewrite He.
Qed.

Lemma filter_ensure_same (b : blob) (n : nat) (t : Tensor F) (fill : bool) :
  filter (is_setup_of b) (ensure_events b n t fill) = ensure_events b n t fill.
Proof.
  unfold ensure_events. destruct (size_of_dims (dims t) =? n); [reflexivity|].
  destruct fill; simpl; unfold is_setup_of; simpl;
    destruct (blob_eq_dec b b); try contradiction; reflexivity.
Qed.

Lemma filter_ensure_other (b b' : blob) (n : nat) (t : Tensor F) (fill : bool) :
  b' <> b ->
  filter (is_setup_of b) (ensure_events b' n t fill) = [].
Proof.
  intros Hne. unfold ensure_events.
  destruct (size_of_dims (dims t) =? n); [reflexivity|].
  destruct fill; simpl; unfold is_setup_of; simpl;
    destruct (blob_eq_dec b' b); try contradiction; reflexivity.
Qed.

Lemma Forall_repeat_eq (x : F) (n : nat) : Forall (eq x) (repeat x n).
Proof. induction n; simpl; constructor; auto. Qed.

(** From a machine whose scratch is set up, any code that keeps the
    scratch leaves it set up. *)
Lemma scratch_after (m0 m' : machine F) (N D : nat) :
  tensor_wf (m_scale m0) -> tensor_wf (m_rowmax m0) ->
  length (storage (m_scale m0)) = N ->
  storage (m_sum_multiplier m0) = repeat Fone D ->
  size_of_dims (dims (m_sum_multiplier m0)) = D ->
  scratch_kept m0 m' ->
  instance_ok m' /\ scratch_sized N D m' /\
  length (storage (m_rowmax m')) = length (storage (m_rowmax m0)).
Proof.
  intros Hsc Hrm Hlen Hones Hsz (Hshape & Hsm & _).
  destruct (Hshape scale_) as [Hd1 Hl1]. destruct (Hshape rowmax_) as [Hd2 Hl2].
  simpl in Hd1, Hl1, Hd2, Hl2. unfold instance_ok, scratch_sized, tensor_wf in *.
  rewrite Hsm, Hones, Hd1, Hl1, Hd2, Hl2, repeat_length.
  repeat split; auto. apply Forall_repeat_eq.
Qed.

Lemma run_has_axis_grad (m : machine F) (axis : Z) (b : bool) (m' : machine F) :
  SoftmaxGradientOp.RunOnDevice axis m = Done (b, m') ->
  exists k, canonical_axis_index_ axis (length (dims (in0 m))) = Done k.
Proof.
  unfold SoftmaxGradientOp.RunOnDevice, bind at 1, canonical_axis_index, lift.
  cbn [get_blob].
  destruct (canonical_axis_index_ axis (length (dims (in0 m)))) as [k| |];
    try discriminate. intros _. now exists k.
Qed.

Lemma run_has_axis_fwd (m : machine F) (axis : Z) (b : bool) (m' : machine F) :
  SoftmaxOp.RunOnDevice axis m = Done (b, m') ->
  exists k, canonical_axis_index_ axis (length (dims (in0 m))) = Done k.
Proof.
  unfold SoftmaxOp.RunOnDevice, bind at 1, canonical_axis_index, lift.
  cbn [get_blob].
  destruct (canonical_axis_index_ axis (length (dims (in0 m)))) as [k| |];
    try discriminate. intros _. now exists k.
Qed.

Section OneRun.
(** [N] and [D] are the [int] locals of the invocation. *)
Variables (m : machine F) (axis : Z) (k N D : nat).
Hypothesis Hk : canonical_axis_index_ axis (length (dims (in0 m))) = Done k.
Hypothesis HN : N = narrow (size_to_dim_ k (dims (in0 m))).
Hypothesis HD : D = narrow (size_from_dim_ k (dims (in0 m))).
Hypothesis Hok : instance_ok m.

Lemma grad_scratch (b : bool) (m' : machine F) :
  SoftmaxGradientOp.RunOnDevice axis m = Done (b, m') ->
  instance_ok m' /\ scratch_sized N D m' /\
  exists evs, trace m' = trace m ++ evs /\
    resized_lazily scale_ N false m evs /\
    resized_lazily sum_multiplier_ D true m evs /\
    filter (is_setup_of rowmax_) evs = [].
Proof.
  destruct Hok as (Hsc & Hrm & Hsm & Hones).
  rewrite (grad_prelude_run m axis k N D Hk HN HD). intros Hrun.
  assert (Hkept : scratch_kept (grad_empty N D m) m').
  { destruct (N =? 0).
    - injection Hrun as _ <-. apply kept_refl.
    - eapply (wlp_elim _ (fun _ m'' => scratch_kept (grad_empty N D m) m''));
        [|exact Hrun].
      apply (keeps_bind (numel Input_0)); [auto with keeps|]. intros n.
      repeat (apply keeps_bind; [auto with keeps|]; intros).
      apply keeps_ret. }
  destruct (scratch_after (grad_empty N D m) m' N D) as (Hok' & Hsized & _);
    simpl; auto using wf_ensure_numel, length_ensure_numel,
                      storage_ensure_ones, size_ensure_ones.
  split; [exact Hok'|]. split; [exact Hsized|].
  destruct Hkept as (_ & _ & evs & Htr & Hev). simpl in Htr.
  exists (grad_prelude_events N D m ++ evs).
  split; [now rewrite Htr, app_assoc|].
  unfold resized_lazily, grad_prelude_events. cbn [get_blob].
  rewrite !filter_app, !(filter_kernel_calls _ evs Hev), !app_nil_r.
  rewrite !filter_ensure_same, !filter_ensure_other by discriminate.
  simpl. rewrite !app_nil_r. auto.
Qed.

Lemma fwd_scratch (b : bool) (m' : machine F) :
  SoftmaxOp.RunOnDevice axis m = Done (b, m') ->
  instance_ok m' /\ scratch_sized N D m' /\
  length (storage (m_rowmax m')) = N /\
  exists evs, trace m' = trace m ++ evs /\
    resized_lazily scale_ N false m evs /\
    resized_lazily rowmax_ N false m evs /\
    resized_lazily sum_multiplier_ D true m evs.
Proof.
  destruct Hok as (Hsc & Hrm & Hsm & Hones).
  rewrite (fwd_prelude_run m axis k N D Hk HN HD). intros Hrun.
  assert (Hkept : scratch_kept (fwd_ready N D m) m').
  { eapply (wlp_elim _ (fun _ m'' => scratch_kept (fwd_ready N D m) m''));
      [|exact Hrun].
    apply keeps_bind; [|intros; apply keeps_ret].
    apply keeps_SoftmaxCPU; discriminate. }
  destruct (scratch_after (fwd_ready N D m) m' N D) as (Hok' & Hsized & Hrow);
    simpl; auto using wf_ensure_numel, length_ensure_numel,
                      storage_ensure_ones, size_ensure_ones.
  split; [exact Hok'|]. split; [exact Hsized|]. split.
  { rewrite Hrow. simpl. now apply length_ensure_numel. }
  destruct Hkept as (_ & _ & evs & Htr & Hev). simpl in Htr.
  exists (fwd_prelude_events N D m ++ evs).
  split; [now rewrite Htr, app_assoc|].
  unfold resized_lazily, fwd_prelude_events. cbn [get_blob].
  rewrite !filter_app, !(filter_kernel_calls _ evs Hev), !app_nil_r.
  rewrite !filter_ensure_same, !filter_ensure_other by discriminate.
  simpl. rewrite !app_nil_r. auto.
Qed.

End OneRun.

(** The invariant of the members holds in every reachable state. *)
Lemma reachable_ok (m : machine F) : reachable m -> instance_ok m.
Proof.
  induction 1 as [i0 i1 o0 | i0 i1 o0 m _ IH | axis m b m' _ IH Hrun
                  | axis m b m' _ IH Hrun].
  - repeat split; constructor.
  - exact IH.
  - destruct (run_has_axis_fwd _ _ _ _ Hrun) as [k Hk].
    now destruct (fwd_scratch m axis k _ _ Hk eq_refl eq_refl IH b m' Hrun).
  - destruct (run_has_axis_grad _ _ _ _ Hrun) as [k Hk].
    now destruct (grad_scratch m axis k _ _ Hk eq_refl eq_refl IH b m' Hrun).
Qed.

(** C8, as the code has it.  From every state an operator instance can
    be in, an invocation of Forward or Backward with collapsed shape
    (N, D), N and D below 2^31 (the code keeps them in [int]), that
    returns leaves the row scratch with N elements and the ones vector
    with D elements all equal to 1; each scratch member was resized
    exactly when its element count differed from N (or D), and the ones
    vector was filled with 1 exactly when it was resized. *)
Theorem scratch_invariant (m : machine F) (axis : Z) (k N D : nat) :
  reachable m ->
  canonical_axis_index_ axis (length (dims (in0 m))) = Done k ->
  N = size_to_dim_ k (dims (in0 m)) ->
  D = size_from_dim_ k (dims (in0 m)) ->
  (Z.of_nat N < 2 ^ 31)%Z ->
  (Z.of_nat D < 2 ^ 31)%Z ->
  (forall b m', SoftmaxOp.RunOnDevice axis m = Done (b, m') ->
     scratch_sized N D m' /\
     length (storage (m_rowmax m')) = N /\
     exists evs, trace m' = trace m ++ evs /\
       resized_lazily scale_ N false m evs /\
       resized_lazily rowmax_ N false m evs /\
       resized_lazily sum_multiplier_ D true m evs) /\
  (forall b m', SoftmaxGradientOp.RunOnDevice axis m = Done (b, m') ->
     scratch_sized N D m' /\
     exists evs, trace m' = trace m ++ evs /\
       resized_lazily scale_ N false m evs /\
       resized_lazily sum_multiplier_ D true m evs).
Proof.
  intros Hreach Hk HN HD HNint HDint. apply reachable_ok in Hreach.
  assert (HN' : N = narrow (size_to_dim_ k (dims (in0 m))))
    by (rewrite <- HN; symmetry; now apply narrow_small).
  assert (HD' : D = narrow (size_from_dim_ k (dims (in0 m))))
    by (rewrite <- HD; symmetry; now apply narrow_small).
  split; intros b m' Hrun.
  - destruct (fwd_scratch m axis k N D Hk HN' HD' Hreach b m' Hrun)
      as (_ & Hs & Hr & evs & Ht & H1 & H2 & H3).
    repeat split; try apply Hs; auto. exists evs. auto.
  - destruct (grad_scratch m axis k N D Hk HN' HD' Hreach b m' Hrun)
      as (_ & Hs & evs & Ht & H1 & H2 & _).
    repeat split; try apply Hs; auto. exists evs. auto.
Qed.

Lemma wlp_true_grad (m : machine F) (axis : Z) :
  wlp (SoftmaxGradientOp.RunOnDevice axis) (fun b _ => b = true) m.
Proof.
  unfold SoftmaxGradientOp.RunOnDevice.
  do 8 (apply wlp_bind, wlp_any; intros; cbv zeta).
  match goal with |- context [if ?c then _ else _] => destruct c end.
  - now apply wlp_ret.
  - do 6 (apply wlp_bind, wlp_any; intros). now apply wlp_ret.
Qed.

Lemma wlp_true_fwd (m : machine F) (axis : Z) :
  wlp (SoftmaxOp.RunOnDevice axis) (fun b _ => b = true) m.
Proof.
  unfold SoftmaxOp.RunOnDevice.
  do 11 (apply wlp_bind, wlp_any; intros; cbv zeta). now apply wlp_ret.
Qed.

(** C10.  Whenever the forward or the gradient [RunOnDevice] runs to
    completion, the value it returns is true. *)
Theorem RunOnDevice_returns_true (axis : Z) (m : machine F) (b : bool)
    (m' : machine F) :
  SoftmaxOp.RunOnDevice axis m = Done (b, m') \/
  SoftmaxGradientOp.RunOnDevice axis m = Done (b, m') ->
  b = true.
Proof.
  intros [H|H].
  - exact (wlp_elim _ _ m b m' (wlp_true_fwd m axis) H).
  - exact (wlp_elim _ _ m b m' (wlp_true_grad m axis) H).
Qed.

End Scratch.

(** ** Running the forward operator *)

Section ForwardRun.
Context {F : Type} {SF : Scalar F} {EF : ScalarExp F} {UF : Allocator F}.

Lemma row_of_flat_map {A : Type} (f : nat -> list A) (W n i : nat) :
  (forall r, r < n -> length (f r) = W) -> i < n ->
  firstn W (skipn (i * W) (flat_map f (seq 0 n))) = f i.
Proof.
  intros Hlen Hi.
  replace n with (i + (1 + (n - S i))) by lia.
  rewrite !seq_app, !flat_map_app. simpl seq. simpl flat_map.
  rewrite app_nil_r.
  rewrite skipn_app, skipn_all2, (length_flat_map_rows _ W)
    by (rewrite ?(length_flat_map_rows _ W); auto; intros; apply Hlen; lia).
  rewrite Nat.sub_diag. simpl.
  rewrite firstn_app, firstn_all2, Hlen by (rewrite ?Hlen; auto).
  rewrite Nat.sub_diag. simpl. apply app_nil_r.
Qed.

Lemma flat_map_nil {A B : Type} (l : list A) :
  flat_map (fun _ => @nil B) l = [].
Proof. induction l; simpl; auto. Qed.

Lemma elem_of_map_seq {A : Type} (f : nat -> A) (n i : nat) :
  i < n -> firstn 1 (skipn i (map f (seq 0 n))) = [f i].
Proof.
  intros Hi. rewrite <- flat_map_singleton.
  rewrite <- (row_of_flat_map (fun i => [f i]) 1 n i) by auto.
  now rewrite Nat.mul_1_r.
Qed.

Lemma length_row_of (x : list F) (N D i : nat) :
  length x = N * D -> i < N -> length (row_of x D i) = D.
Proof.
  intros Hx Hi. unfold row_of. rewrite length_firstn, length_skipn. nia.
Qed.

(** [N] and [D] are the products of the dimensions, and they fit. *)
Variables (m : machine F) (axis : Z) (k N D : nat).
Hypothesis Hk : canonical_axis_index_ axis (length (dims (in0 m))) = Done k.
Hypothesis HN : N = size_to_dim_ k (dims (in0 m)).
Hypothesis HD : D = size_from_dim_ k (dims (in0 m)).
Hypothesis Hfit : fits_int N D.

(** With rows and columns the four passes run over the N rows. *)
Lemma fwd_run_nonempty :
  N <> 0 -> D <> 0 ->
  tensor_wf (in0 m) ->
  instance_ok m ->
  SoftmaxOp.RunOnDevice axis m = Done (true, fwd_final N D m).
Proof.
  intros HN0 HD0 HwfX (Hsc & Hrm & Hsm & Hones).
  assert (HND := numel_collapsed m k N D HN HD).
  assert (Hx : length (storage (in0 m)) = N * D) by (rewrite <- HND; exact HwfX).
  assert (HlenE : forall r, r < N ->
            length (fwd_exp_row (storage (in0 m)) D r) = D).
  { intros. unfold fwd_exp_row. rewrite length_map. now apply (length_row_of _ N). }
  assert (HlenY : forall r, r < N ->
            length (fwd_Y_row (storage (in0 m)) D r) = D).
  { intros. unfold fwd_Y_row. rewrite length_map. now apply HlenE. }
  rewrite (fwd_prelude_run m axis k N D Hk
             (narrowed_rows m k N D HN Hfit) (narrowed_cols m k N D HD Hfit)).
  apply wp_bind_eq. unfold SoftmaxOp.SoftmaxCPU.
  apply wp_bind, wp_emit.
  destruct (N =? 0) eqn:E1; [apply Nat.eqb_eq in E1; contradiction|].
  destruct (D =? 0) eqn:E2; [apply Nat.eqb_eq in E2; contradiction|].
  cbn [orb]. unfold fwd_ready. msimpl.
  (* row maxima *)
  apply wp_bind.
  apply (wp_rows_loop rowmax_ 1 N
           (fun i => [fwd_rowmax (storage (in0 m)) D i]) (fun _ => [])).
  { reflexivity. }
  { intros i Hi Q' HQ'. unfold rows_done. msimpl.
    apply wp_bind, wp_load; msimpl; [nia|].
    apply wp_store; msimpl.
    - rewrite length_app, length_skipn, length_ensure_numel by assumption.
      rewrite (length_flat_map_rows _ 1) by reflexivity. simpl. lia.
    - rewrite Nat.mul_1_r in HQ'. unfold rows_done in HQ'.
      rewrite add_trace_nil in HQ'. msimpl_in HQ'. exact HQ'. }
  unfold rows_done. msimpl. rewrite !flat_map_singleton.
  rewrite skipn_all2 by (rewrite length_ensure_numel by assumption; lia).
  rewrite flat_map_nil, !app_nil_r.
  (* exponentials of the shifted entries *)
  apply wp_bind.
  apply (wp_rows_loop Output_0 D N (fwd_exp_row (storage (in0 m)) D) (fun _ => [])).
  { exact HlenE. }
  { intros i Hi Q' HQ'. unfold rows_done. msimpl.
    apply wp_bind, wp_load; msimpl; [nia|].
    apply wp_bind, wp_load; msimpl; [rewrite length_map, length_seq; lia|].
    rewrite elem_of_map_seq by exact Hi. cbn [nth].
    apply wp_store; msimpl.
    - change (map _ (firstn D (skipn (i * D) (storage (in0 m)))))
        with (fwd_exp_row (storage (in0 m)) D i).
      rewrite HlenE by exact Hi.
      rewrite length_app, length_skipn, length_resized.
      rewrite (length_flat_map_rows _ D) by (intros; apply HlenE; lia).
      nia.
    - unfold rows_done in HQ'. rewrite add_trace_nil in HQ'.
      msimpl_in HQ'. exact HQ'. }
  unfold rows_done. msimpl. rewrite HND.
  rewrite skipn_all2 by (rewrite length_resized; lia).
  rewrite flat_map_nil, !app_nil_r.
  (* row sums *)
  apply wp_bind.
  apply (wp_rows_loop scale_ 1 N
           (fun i => [fwd_scale (storage (in0 m)) D i]) (fun _ => [])).
  { reflexivity. }
  { intros i Hi Q' HQ'. unfold rows_done. msimpl.
    apply wp_bind, wp_load; msimpl.
    { rewrite (length_flat_map_rows _ D) by exact HlenE. nia. }
    rewrite row_of_flat_map by assumption.
    apply wp_store; msimpl.
    - rewrite length_app, length_skipn, length_ensure_numel by assumption.
      rewrite (length_flat_map_rows _ 1) by reflexivity. simpl. lia.
    - rewrite Nat.mul_1_r in HQ'. unfold rows_done in HQ'.
      rewrite add_trace_nil in HQ'. msimpl_in HQ'. exact HQ'. }
  unfold rows_done. msimpl. rewrite !flat_map_singleton.
  rewrite skipn_all2 by (rewrite length_ensure_numel by assumption; lia).
  rewrite flat_map_nil, !app_nil_r.
  (* scaling by the row sums *)
  apply (wp_rows_loop Output_0 D N (fwd_Y_row (storage (in0 m)) D) (fun _ => [])).
  { exact HlenY. }
  { intros i Hi Q' HQ'. unfold rows_done. msimpl.
    assert (Hpre : length (flat_map (fwd_Y_row (storage (in0 m)) D) (seq 0 i))
                   = i * D).
    { apply length_flat_map_rows. intros; apply HlenY; lia. }
    apply wp_bind, wp_load; msimpl.
    { rewrite length_app, length_skipn, Hpre.
      rewrite (length_flat_map_rows _ D) by exact HlenE. nia. }
    rewrite read_next by exact Hpre.
    rewrite row_of_flat_map by assumption.
    apply wp_bind, wp_load; msimpl; [rewrite length_map, length_seq; lia|].
    rewrite elem_of_map_seq by exact Hi. cbn [nth].
    apply wp_store; msimpl.
    - rewrite length_map, HlenE by exact Hi.
      rewrite length_app, length_skipn, Hpre.
      rewrite (length_flat_map_rows _ D) by exact HlenE. nia.
    - unfold rows_done in HQ'. rewrite add_trace_nil in HQ'.
      msimpl_in HQ'. exact HQ'. }
  unfold rows_done. msimpl.
  rewrite skipn_all2 by (rewrite (length_flat_map_rows _ D) by exact HlenE; lia).
  rewrite flat_map_nil, !app_nil_r.
  unfold ret, fwd_final, data. rewrite <- app_assoc. reflexivity.
Qed.

End ForwardRun.

(** ** The forward operator over the real numbers *)

Section RowSums.
Context {F : Type} {SF : Scalar F}.

Lemma row_sum_big_sum (l : list F) :
  fold_left Fadd l Fzero = big_sum (length l) (fun c => nth c l Fzero).
Proof.
  induction l as [|x l IH] using rev_ind; [reflexivity|].
  rewrite fold_left_app, length_app, Nat.add_1_r. simpl.
  rewrite IH, nth_middle. f_equal.
  apply big_sum_ext. intros c Hc. now rewrite app_nth1.
Qed.

End RowSums.

Ltac real_ops :=
  cbn [Fadd Fmul Fsub Fopp Fzero Fone Fexp Fmax Fdiv Scalar_R ScalarExp_R] in *.

Section ForwardReal.
Context {UR : Allocator R}.
Open Scope R_scope.



Lemma big_sum_pos (n : nat) (f : nat -> R) :
  (forall c, (c < n)%nat -> 0 < f c) ->
  0 <= big_sum n f /\ forall c, (c < n)%nat -> f c <= big_sum n f.
Proof.
  induction n as [|n IH]; intros Hf; simpl; real_ops.
  - split; [lra | intros; lia].
  - destruct IH as [H0 Hle]; [intros; apply Hf; lia|].
    pose proof (Hf n (Nat.lt_succ_diag_r n)).
    split; [lra|]. intros c Hc.
    destruct (Nat.eq_dec c n) as [->|Hne]; [lra|].
    specialize (Hle c ltac:(lia)). lra.
Qed.

Lemma big_sum_div (n : nat) (f : nat -> R) (s : R) :
  big_sum n (fun c => f c / s) = big_sum n f / s.
Proof.
  induction n as [|n IH]; simpl; real_ops.
  - unfold Rdiv. ring.
  - rewrite IH. unfold Rdiv. ring.
Qed.


Lemma nth_row_of (x : list R) (D i j : nat) :
  (j < D)%nat -> nth j (row_of x D i) 0 = nth (i * D + j) x 0.
Proof.
  intros Hj. unfold row_of. now rewrite nth_firstn_lt, nth_skipn_add.
Qed.

Lemma nth_exp_row (x : list R) (N D i j : nat) :
  length x = (N * D)%nat -> (i < N)%nat -> (j < D)%nat ->
  nth j (fwd_exp_row x D i) 0
  = exp (nth (i * D + j) x 0 - fwd_rowmax x D i).
Proof.
  intros Hx Hi Hj. unfold fwd_exp_row.
  rewrite (nth_indep _ 0 (Fexp (Fsub 0 (fwd_rowmax x D i))))
    by (rewrite length_map, (length_row_of x N); auto).
  rewrite (map_nth (fun v => Fexp (v - fwd_rowmax x D i)%sc)).
  real_ops. now rewrite nth_row_of.
Qed.


End ForwardReal.

(** *** The forward results on concrete inputs *)


(** Both operators return on [scratch_example]. *)
Lemma scratch_example_runs :
  SoftmaxOp.RunOnDevice 1 scratch_example
  = Done (true, fwd_final 1 3 scratch_example) /\
  SoftmaxGradientOp.RunOnDevice 1 scratch_example
  = Done (true, grad_final 1 3 scratch_example).
Proof.
  split.
  - apply (fwd_run_nonempty scratch_example 1 1); try reflexivity;
      try discriminate; [repeat split; simpl; lia|].
    apply fresh_instance_ok.
  - apply (grad_run_nonempty scratch_example 1 1); try reflexivity;
      try discriminate; try (simpl; lia); [repeat split; simpl; lia|].
    apply fresh_instance_ok.
Defined.

Lemma scratch_invariant_witness :
  (SoftmaxOp.RunOnDevice 1 scratch_example
   = Done (true, fwd_final 1 3 scratch_example) /\
   SoftmaxGradientOp.RunOnDevice 1 scratch_example
   = Done (true, grad_final 1 3 scratch_example)) /\
  (forall b m', SoftmaxOp.RunOnDevice 1 scratch_example = Done (b, m') ->
     scratch_sized 1 3 m' /\
     length (storage (m_rowmax m')) = 1 /\
     exists evs, trace m' = trace scratch_example ++ evs /\
       resized_lazily scale_ 1 false scratch_example evs /\
       resized_lazily rowmax_ 1 false scratch_example evs /\
       resized_lazily sum_multiplier_ 3 true scratch_example evs) /\
  (forall b m', SoftmaxGradientOp.RunOnDevice 1 scratch_example = Done (b, m') ->
     scratch_sized 1 3 m' /\
     exists evs, trace m' = trace scratch_example ++ evs /\
       resized_lazily scale_ 1 false scratch_example evs /\
       resized_lazily sum_multiplier_ 3 true scratch_example evs).
Proof.
  split; [exact scratch_example_runs|].
  apply (scratch_invariant scratch_example 1 1 1 3); try reflexivity.
  unfold scratch_example. apply reach_fresh.
Defined.

(** *** The forward operator beyond the range of [int] *)

(** On X of shape (2^32, 1) the [int] N is 0: the forward operator calls
    [SoftmaxCPU] with no row and returns; the row scratch and the row
    maxima hold no element and Y holds what it held. *)
Lemma fwd_beyond_int_run :
  SoftmaxOp.RunOnDevice 1 fwd_beyond_int
  = Done (true, fwd_degenerate 0 1 fwd_beyond_int) /\
  storage (out0 (fwd_degenerate 0 1 fwd_beyond_int)) = repeat 7%R two_pow_32 /\
  storage (m_scale (fwd_degenerate 0 1 fwd_beyond_int)) = [] /\
  storage (m_sum_multiplier (fwd_degenerate 0 1 fwd_beyond_int)) = [1%R] /\
  trace (fwd_degenerate 0 1 fwd_beyond_int)
  = [EvResize Output_0 [two_pow_32; 1];
     EvResize sum_multiplier_ [1]; EvSet 1 (data sum_multiplier_);
     EvSoftmaxCPU 0 1 (data Input_0) (data Output_0)].
Proof.
  destruct beyond_int_sizes as (Hs & _ & _ & HN & HD).
  split; [|split; [|split; [|split]]].
  - apply (fwd_run_degenerate fwd_beyond_int 1 1 0 1).
    + reflexivity.
    + symmetry. exact HN.
    + symmetry. exact HD.
    + left. reflexivity.
  - change (storage (out0 (fwd_degenerate 0 1 fwd_beyond_int)))
      with (keep_prefix 0%R (size_of_dims [two_pow_32; 1]) (repeat 7%R two_pow_32)).
    rewrite Hs. apply keep_prefix_same, repeat_length.
  - reflexivity.
  - reflexivity.
  - reflexivity.
Qed.


(** C8 as stated fails: [fwd_beyond_int] is a fresh instance and its
    collapsed shape is (2^32, 1); the forward operator returns with a row
    scratch that holds no element, not 2^32. *)
Lemma scratch_rows_beyond_int :
  reachable fwd_beyond_int /\
  size_to_dim_ 1 (dims (in0 fwd_beyond_int)) = two_pow_32 /\
  size_from_dim_ 1 (dims (in0 fwd_beyond_int)) = 1 /\
  0 < two_pow_32 /\
  exists m',
    SoftmaxOp.RunOnDevice 1 fwd_beyond_int = Done (true, m') /\
    length (storage (m_scale m')) = 0.
Proof.
  destruct beyond_int_sizes as (_ & HN & HD & _).
  destruct fwd_beyond_int_run as (Hrun & _ & Hsc & _).
  split; [apply reach_fresh|]. split; [exact HN|]. split; [exact HD|].
  split; [exact two_pow_32_pos|].
  exists (fwd_degenerate 0 1 fwd_beyond_int). split; [exact Hrun|].
  rewrite Hsc. reflexivity.
Qed.


Lemma fwd_example_runs :
  SoftmaxOp.RunOnDevice 1 fwd_example = Done (true, fwd_final 1 3 fwd_example).
Proof.
  apply (fwd_run_nonempty fwd_example 1 1); try reflexivity; try discriminate.
  - repeat split; simpl; lia.
  - apply fresh_instance_ok.
Defined.

Lemma RunOnDevice_returns_true_witness :
  SoftmaxOp.RunOnDevice 1 fwd_example = Done (true, fwd_final 1 3 fwd_example) /\
  true = true.
Proof.
  split; [exact fwd_example_runs|].
  apply (RunOnDevice_returns_true 1 fwd_example true (fwd_final 1 3 fwd_example)).
  left. exact fwd_example_runs.
Defined.

(* ================================================================== *)
(** * Part III: further properties of the code *)
(* ================================================================== *)

(** ** Code that writes only where it is allowed to *)

Section Confined.
Context {F : Type} {SF : Scalar F} {UF : Allocator F}.
Variable w : blob -> bool.

Lemma confined_here (m : machine F) :
  (forall b, w b = false -> get_blob b m = get_blob b m) /\
  exists evs, trace m = trace m ++ evs /\
              Forall (fun e => w (written e) = true) evs.
Proof.
  split; [reflexivity|]. exists []. split; [now rewrite app_nil_r | constructor].
Qed.

Lemma confined_ret {A : Type} (a : A) : confined (F := F) w (ret a).
Proof. intros m. apply confined_here. Qed.

Lemma confined_bind {A B : Type} (c : prog F A) (k : A -> prog F B) :
  confined w c -> (forall a, confined w (k a)) -> confined w (bind c k).
Proof.
  intros Hc Hk m. unfold bind. specialize (Hc m).
  destruct (c m) as [[a m1]| |]; auto.
  specialize (Hk a m1). destruct (k a m1) as [[x m2]| |]; auto.
  destruct Hc as (H1 & e1 & T1 & F1), Hk as (H2 & e2 & T2 & F2). split.
  - intros b Hb. now rewrite H2, H1.
  - exists (e1 ++ e2). split; [now rewrite T2, T1, app_assoc | now apply Forall_app].
Qed.

Lemma confined_numel (b : blob) : confined (F := F) w (numel b).
Proof. intros m. apply confined_here. Qed.

Lemma confined_load (p : ptr) (n : nat) : confined (F := F) w (load p n).
Proof.
  intros m. unfold load. destruct (in_bounds p n m); [|exact I].
  apply confined_here.
Qed.

Lemma confined_emit (e : event) :
  w (written e) = true -> confined (F := F) w (emit e).
Proof.
  intros He m. split.
  - intros b _. apply get_add_trace.
  - exists [e]. split; [reflexivity | now constructor].
Qed.

Lemma confined_store (p : ptr) (l : list F) :
  w (base p) = true -> confined w (store p l).
Proof.
  intros Hp m. unfold store. destruct (in_bounds p (length l) m); [|exact I].
  unfold poke. split.
  - intros b Hb. apply get_set_other.
    intros E. rewrite E in Hp. congruence.
  - exists []. split; [|constructor].
    now rewrite trace_set_blob, app_nil_r.
Qed.

Lemma confined_for_each (l : list nat) (body : nat -> prog F unit) :
  (forall i, confined w (body i)) -> confined w (for_each l body).
Proof.
  intros Hb. induction l as [|i l IH]; simpl.
  - apply confined_ret.
  - apply confined_bind; auto.
Qed.

Lemma confined_for_range (n : nat) (body : nat -> prog F unit) :
  (forall i, confined w (body i)) -> confined w (for_range n body).
Proof. apply confined_for_each. Qed.

Lemma confined_if {A : Type} (c : bool) (p q : prog F A) :
  confined w p -> confined w q -> confined w (if c then p else q).
Proof. now destruct c. Qed.

Lemma confined_int_mul (a b : nat) : confined (F := F) w (int_mul a b).
Proof.
  intros m. unfold int_mul.
  destruct (Z.of_nat a * Z.of_nat b <? 2 ^ 31)%Z; [apply confined_here|exact I].
Qed.

End Confined.

Ltac confine :=
  repeat first
    [ apply confined_ret | apply confined_numel | apply confined_load
    | apply confined_int_mul
    | apply confined_emit; reflexivity | apply confined_store; reflexivity
    | apply confined_bind; [|intros ?]
    | apply confined_for_range; intros ?
    | apply confined_if ].

Section ConfinedRuns.
Context {F : Type} {SF : Scalar F} {EF : ScalarExp F} {UF : Allocator F}.

(** The gradient operator after [dX->ResizeLike(Y)]. *)
Lemma confined_grad_kernels (N D : nat) :
  confined (F := F) grad_written
    (if N =? 0 then ret true
     else
       n <- numel Input_0 ;;
       CopySameDevice n (data Input_1) (data Output_0) ;;
       for_range N (fun i =>
         off <- int_mul i D ;;
         Dot D (data Input_0 +! off) (data Input_1 +! off)
             (data scale_ +! i)) ;;
       Gemm CblasNoTrans CblasNoTrans N D 1 (- Fone)%sc
            (data scale_) (data sum_multiplier_) Fone (data Output_0) ;;
       n' <- numel Input_0 ;;
       Mul n' (data Output_0) (data Input_0) (data Output_0) ;;
       ret true).
Proof. unfold CopySameDevice, Dot, Gemm, Mul. confine. Qed.

(** The forward operator from the call of [SoftmaxCPU]. *)
Lemma confined_SoftmaxCPU (N D : nat) :
  confined (F := F) fwd_written
    (SoftmaxOp.SoftmaxCPU N D (data Input_0) (data Output_0) (data scale_)
       (data sum_multiplier_) (data rowmax_) ;;
     ret true).
Proof. unfold SoftmaxOp.SoftmaxCPU. confine. Qed.

Lemma grad_run_kept (m : machine F) (axis : Z) (k : nat) (b : bool) (m' : machine F) :
  canonical_axis_index_ axis (length (dims (in0 m))) = Done k ->
  SoftmaxGradientOp.RunOnDevice axis m = Done (b, m') ->
  scratch_kept
    (grad_empty (narrow (size_to_dim_ k (dims (in0 m))))
       (narrow (size_from_dim_ k (dims (in0 m)))) m) m'.
Proof.
  intros Hk. rewrite (grad_prelude_run m axis k _ _ Hk eq_refl eq_refl).
  intros Hrun. destruct (_ =? 0).
  - injection Hrun as _ <-. apply kept_refl.
  - eapply (wlp_elim _ (fun _ m'' => scratch_kept _ m'')); [|exact Hrun].
    apply (keeps_bind (numel Input_0)); [auto with keeps|]. intros n.
    repeat (apply keeps_bind; [auto with keeps|]; intros).
    apply keeps_ret.
Qed.

Lemma fwd_run_kept (m : machine F) (axis : Z) (k : nat) (b : bool) (m' : machine F) :
  canonical_axis_index_ axis (length (dims (in0 m))) = Done k ->
  SoftmaxOp.RunOnDevice axis m = Done (b, m') ->
  scratch_kept
    (fwd_ready (narrow (size_to_dim_ k (dims (in0 m))))
       (narrow (size_from_dim_ k (dims (in0 m)))) m) m'.
Proof.
  intros Hk. rewrite (fwd_prelude_run m axis k _ _ Hk eq_refl eq_refl).
  intros Hrun.
  eapply (wlp_elim _ (fun _ m'' => scratch_kept _ m'')); [|exact Hrun].
  apply keeps_bind; [|intros; apply keeps_ret].
  apply keeps_SoftmaxCPU; discriminate.
Qed.

End ConfinedRuns.

(** ** What an invocation writes, and when it throws *)

Section WhatARunWrites.
Context {F : Type} {SF : Scalar F} {EF : ScalarExp F} {UF : Allocator F}.

(** X1.  Whenever the forward or the gradient [RunOnDevice] returns, its
    output has the dimensions of its first input and holds as many
    elements as those dimensions say: [ResizeLike] is the only statement
    that changes the shape of the output.  This holds for every input,
    every state of the instance and every dY, whatever its shape. *)
Theorem output_takes_shape_of_input (axis : Z) (m : machine F) (b : bool)
    (m' : machine F) :
  SoftmaxOp.RunOnDevice axis m = Done (b, m') \/
  SoftmaxGradientOp.RunOnDevice axis m = Done (b, m') ->
  dims (out0 m') = dims (in0 m) /\
  length (storage (out0 m')) = size_of_dims (dims (in0 m)).
Proof.
  intros [Hrun|Hrun].
  - destruct (run_has_axis_fwd _ _ _ _ Hrun) as [k Hk].
    destruct (fwd_run_kept m axis k b m' Hk Hrun) as (Hshape & _).
    destruct (Hshape Output_0) as [Hd Hl]. simpl in Hd, Hl.
    now rewrite Hd, Hl, length_resized.
  - destruct (run_has_axis_grad _ _ _ _ Hrun) as [k Hk].
    destruct (grad_run_kept m axis k b m' Hk Hrun) as (Hshape & _).
    destruct (Hshape Output_0) as [Hd Hl]. simpl in Hd, Hl.
    now rewrite Hd, Hl, length_resized.
Qed.

(** X2.  Whenever the forward or the gradient [RunOnDevice] returns, both
    input tensors are what they were before the invocation, dimensions
    and elements: no statement resizes an input or writes through a
    pointer into one. *)
Theorem inputs_are_read_only (axis : Z) (m : machine F) (b : bool)
    (m' : machine F) :
  SoftmaxOp.RunOnDevice axis m = Done (b, m') \/
  SoftmaxGradientOp.RunOnDevice axis m = Done (b, m') ->
  in0 m' = in0 m /\ in1 m' = in1 m.
Proof.
  intros [Hrun|Hrun].
  - destruct (run_has_axis_fwd _ _ _ _ Hrun) as [k Hk].
    rewrite (fwd_prelude_run m axis k _ _ Hk eq_refl eq_refl) in Hrun.
    set (N := narrow (size_to_dim_ k (dims (in0 m)))) in *.
    set (D := narrow (size_from_dim_ k (dims (in0 m)))) in *.
    pose proof (confined_SoftmaxCPU N D (fwd_ready N D m)) as H.
    rewrite Hrun in H. destruct H as [H _].
    split; [apply (H Input_0) | apply (H Input_1)]; reflexivity.
  - destruct (run_has_axis_grad _ _ _ _ Hrun) as [k Hk].
    rewrite (grad_prelude_run m axis k _ _ Hk eq_refl eq_refl) in Hrun.
    set (N := narrow (size_to_dim_ k (dims (in0 m)))) in *.
    set (D := narrow (size_from_dim_ k (dims (in0 m)))) in *.
    pose proof (confined_grad_kernels N D (grad_empty N D m)) as H.
    rewrite Hrun in H. destruct H as [H _].
    split; [apply (H Input_0) | apply (H Input_1)]; reflexivity.
Qed.

(** X4.  The gradient operator never touches the row-maximum scratch:
    whenever its [RunOnDevice] returns, [rowmax_] is what it was, and no
    call of the invocation (resize, fill or kernel) writes to it. *)
Theorem backward_never_touches_rowmax (axis : Z) (m : machine F) (b : bool)
    (m' : machine F) :
  SoftmaxGradientOp.RunOnDevice axis m = Done (b, m') ->
  m_rowmax m' = m_rowmax m /\
  exists evs, trace m' = trace m ++ evs /\
              Forall (fun e => written e <> rowmax_) evs.
Proof.
  intros Hrun. destruct (run_has_axis_grad _ _ _ _ Hrun) as [k Hk].
  rewrite (grad_prelude_run m axis k _ _ Hk eq_refl eq_refl) in Hrun.
  set (N := narrow (size_to_dim_ k (dims (in0 m)))) in *.
  set (D := narrow (size_from_dim_ k (dims (in0 m)))) in *.
  pose proof (confined_grad_kernels N D (grad_empty N D m)) as H.
  rewrite Hrun in H. destruct H as (Hsame & evs & Htr & Hev).
  split; [apply (Hsame rowmax_); reflexivity|].
  exists (grad_prelude_events N D m ++ evs). split.
  - rewrite Htr. simpl. now rewrite app_assoc.
  - apply Forall_app. split.
    + unfold grad_prelude_events.
      apply Forall_app; split; [apply Forall_ensure_events; discriminate|].
      apply Forall_app; split; [apply Forall_ensure_events; discriminate|].
      repeat constructor. discriminate.
    + eapply Forall_impl; [|exact Hev]. intros e He E.
      cbv beta in He. rewrite E in He. discriminate.
Qed.

(** X5.  On a non-empty batch (N >= 1) whose sizes N, D and N * D are
    below 2^31, the gradient operator leaves defined behaviour exactly
    when dY holds fewer elements than Y: the copy of [Y.numel()] elements
    out of dY then reads past the storage of dY, and nothing checks for
    it.  With at least that many elements the invocation returns. *)
Theorem backward_reads_past_short_dY (m : machine F) (axis : Z) (k N D : nat) :
  canonical_axis_index_ axis (length (dims (in0 m))) = Done k ->
  N = size_to_dim_ k (dims (in0 m)) ->
  D = size_from_dim_ k (dims (in0 m)) ->
  fits_int N D ->
  1 <= N ->
  tensor_wf (in0 m) ->
  instance_ok m ->
  (SoftmaxGradientOp.RunOnDevice axis m = Undefined <->
   length (storage (in1 m)) < N * D).
Proof.
  intros Hk HN HD Hfit HN1 HwfY Hok. split.
  - intros Hrun.
    destruct (le_lt_dec (N * D) (length (storage (in1 m)))) as [Hle|Hlt];
      [|exact Hlt].
    rewrite (grad_run_nonempty m axis k N D Hk HN HD Hfit) in Hrun; auto;
      [discriminate|lia].
  - intros Hlt.
    rewrite (grad_prelude_run m axis k N D Hk
               (narrowed_rows m k N D HN Hfit) (narrowed_cols m k N D HD Hfit)).
    destruct (N =? 0) eqn:E; [apply Nat.eqb_eq in E; lia|].
    unfold bind, numel, CopySameDevice, bind, emit, load, in_bounds.
    cbn [get_blob log_event add_trace grad_empty in0 in1 dims storage data
         base offset Nat.add].
    rewrite (numel_collapsed m k N D HN HD).
    now apply Nat.leb_gt in Hlt as ->.
Qed.

End WhatARunWrites.

(** ** The scratch members across two invocations *)

Section FittingScratch.
Context {F : Type} {SF : Scalar F} {UF : Allocator F}.

Lemma ensure_ones_fits (n : nat) (t : Tensor F) :
  size_of_dims (dims t) = n -> ensure_ones n t = t.
Proof. unfold ensure_ones. intros ->. now rewrite Nat.eqb_refl. Qed.

Lemma ensure_events_fits (b : blob) (n : nat) (t : Tensor F) (fill : bool) :
  size_of_dims (dims t) = n -> ensure_events b n t fill = [].
Proof. unfold ensure_events. intros ->. now rewrite Nat.eqb_refl. Qed.

Lemma kernel_calls_are_no_setup (evs : list event) :
  Forall (fun e => is_kernel_call e = true) evs ->
  filter (fun e => negb (is_kernel_call e)) evs = [].
Proof.
  induction 1 as [|e evs He _ IH]; simpl; [reflexivity|]. now rewrite He.
Qed.

End FittingScratch.

Section TwoRuns.
Context {F : Type} {SF : Scalar F} {EF : ScalarExp F} {UF : Allocator F}.

(** X6.  The scratch members are reused.  When an operator instance has
    returned from an invocation with collapsed shape (N, D) and is invoked
    again, on any inputs and axis that collapse to the same (N, D), the
    second invocation resizes and fills no scratch member: the only call
    it makes besides the kernels is the resize of its output, and the ones
    vector is the very tensor the first invocation left. *)
Theorem second_run_reuses_scratch (m : machine F) (axis axis' : Z) (k k' : nat)
    (i0 i1 o0 : Tensor F) (b b' : bool) (m1 m2 : machine F) :
  reachable m ->
  canonical_axis_index_ axis (length (dims (in0 m))) = Done k ->
  canonical_axis_index_ axis' (length (dims i0)) = Done k' ->
  size_to_dim_ k' (dims i0) = size_to_dim_ k (dims (in0 m)) ->
  size_from_dim_ k' (dims i0) = size_from_dim_ k (dims (in0 m)) ->
  (SoftmaxOp.RunOnDevice axis m = Done (b, m1) /\
   SoftmaxOp.RunOnDevice axis' (rebind i0 i1 o0 m1) = Done (b', m2)) \/
  (SoftmaxGradientOp.RunOnDevice axis m = Done (b, m1) /\
   SoftmaxGradientOp.RunOnDevice axis' (rebind i0 i1 o0 m1) = Done (b', m2)) ->
  m_sum_multiplier m2 = m_sum_multiplier m1 /\
  exists evs, trace m2 = trace m1 ++ evs /\
    filter (fun e => negb (is_kernel_call e)) evs = [EvResize Output_0 (dims i0)].
Proof.
  intros Hreach Hk Hk' HN HD Hruns. apply reachable_ok in Hreach.
  set (N := narrow (size_to_dim_ k (dims (in0 m)))).
  set (D := narrow (size_from_dim_ k (dims (in0 m)))).
  destruct Hruns as [[Hrun1 Hrun2]|[Hrun1 Hrun2]].
  - destruct (fwd_scratch m axis k N D Hk eq_refl eq_refl Hreach b m1 Hrun1)
      as ((Hsc & Hrm & Hsm & Hones) & (Hl1 & Hl2) & Hl3 & _).
    assert (Hs1 : size_of_dims (dims (m_scale m1)) = N) by (rewrite <- Hsc; exact Hl1).
    assert (Hs2 : size_of_dims (dims (m_rowmax m1)) = N) by (rewrite <- Hrm; exact Hl3).
    assert (Hs3 : size_of_dims (dims (m_sum_multiplier m1)) = D)
      by (rewrite <- Hsm, Hl2; apply repeat_length).
    pose proof (fwd_run_kept (rebind i0 i1 o0 m1) axis' k' b' m2 Hk' Hrun2)
      as (_ & Hsame & evs & Htr & Hev).
    cbn [rebind in0] in Hsame, Htr. rewrite HN, HD in Hsame, Htr.
    fold N D in Hsame, Htr.
    cbn [fwd_ready rebind m_sum_multiplier trace] in Hsame, Htr.
    unfold fwd_prelude_events in Htr.
    cbn [rebind m_scale m_rowmax m_sum_multiplier in0] in Htr.
    rewrite !ensure_events_fits in Htr by assumption.
    rewrite ensure_ones_fits in Hsame by assumption.
    split; [exact Hsame|].
    exists ([EvResize Output_0 (dims i0)] ++ evs). split.
    + rewrite Htr. simpl. now rewrite <- app_assoc.
    + rewrite filter_app, (kernel_calls_are_no_setup evs Hev). reflexivity.
  - destruct (grad_scratch m axis k N D Hk eq_refl eq_refl Hreach b m1 Hrun1)
      as ((Hsc & Hrm & Hsm & Hones) & (Hl1 & Hl2) & _).
    assert (Hs1 : size_of_dims (dims (m_scale m1)) = N) by (rewrite <- Hsc; exact Hl1).
    assert (Hs3 : size_of_dims (dims (m_sum_multiplier m1)) = D)
      by (rewrite <- Hsm, Hl2; apply repeat_length).
    pose proof (grad_run_kept (rebind i0 i1 o0 m1) axis' k' b' m2 Hk' Hrun2)
      as (_ & Hsame & evs & Htr & Hev).
    cbn [rebind in0] in Hsame, Htr. rewrite HN, HD in Hsame, Htr.
    fold N D in Hsame, Htr.
    cbn [grad_empty rebind m_sum_multiplier trace] in Hsame, Htr.
    unfold grad_prelude_events in Htr.
    cbn [rebind m_scale m_rowmax m_sum_multiplier in0] in Htr.
    rewrite !ensure_events_fits in Htr by assumption.
    rewrite ensure_ones_fits in Hsame by assumption.
    split; [exact Hsame|].
    exists ([EvResize Output_0 (dims i0)] ++ evs). split.
    + rewrite Htr. simpl. now rewrite <- app_assoc.
    + rewrite filter_app, (kernel_calls_are_no_setup evs Hev). reflexivity.
Qed.

End TwoRuns.

(** ** What the result of the gradient operator depends on *)

Section StateIndependence.
Context {F : Type} {SF : Scalar F}.

Lemma grad_scale_prefix (N D i : nat) (y dy : list F) :
  i < N -> grad_scale y (firstn (N * D) dy) D i = grad_scale y dy D i.
Proof.
  intros Hi. unfold grad_scale.
  rewrite skipn_firstn_comm, firstn_firstn.
  replace (Nat.min D (N * D - i * D)) with D by nia. reflexivity.
Qed.

Lemma grad_dX_prefix (N D : nat) (y dy : list F) :
  grad_dX N D y (firstn (N * D) dy) = grad_dX N D y dy.
Proof.
  unfold grad_dX. rewrite firstn_firstn, Nat.min_id. do 2 f_equal.
  apply map_ext_in. intros i Hi. apply in_seq in Hi.
  apply grad_scale_prefix. lia.
Qed.

(** X7.  The dX of the gradient operator depends on Y and on the first
    [Y.numel()] elements of dY only.  Two invocations on the same Y whose
    dY agree on those elements return the same dX (dimensions and
    elements), whatever the dimensions of dY and its further elements,
    the contents of the scratch members and of dX before the invocation,
    and the allocator.  Empty batches are included; the sizes N, D and
    N * D of Y are below 2^31. *)
Theorem backward_result_depends_only_on_inputs (UF1 UF2 : Allocator F)
    (m1 m2 : machine F) (axis : Z) (k N D : nat) :
  canonical_axis_index_ axis (length (dims (in0 m1))) = Done k ->
  N = size_to_dim_ k (dims (in0 m1)) ->
  D = size_from_dim_ k (dims (in0 m1)) ->
  fits_int N D ->
  tensor_wf (in0 m1) ->
  instance_ok m1 -> instance_ok m2 ->
  in0 m2 = in0 m1 ->
  N * D <= length (storage (in1 m1)) ->
  N * D <= length (storage (in1 m2)) ->
  firstn (N * D) (storage (in1 m2)) = firstn (N * D) (storage (in1 m1)) ->
  exists m1' m2',
    @SoftmaxGradientOp.RunOnDevice F SF UF1 axis m1 = Done (true, m1') /\
    @SoftmaxGradientOp.RunOnDevice F SF UF2 axis m2 = Done (true, m2') /\
    out0 m2' = out0 m1'.
Proof.
  intros Hk HN HD Hfit Hwf Hok1 Hok2 E0 HdY1 HdY2 E1.
  assert (Hk2 : canonical_axis_index_ axis (length (dims (in0 m2))) = Done k)
    by now rewrite E0.
  assert (HN2 : N = size_to_dim_ k (dims (in0 m2))) by now rewrite E0.
  assert (HD2 : D = size_from_dim_ k (dims (in0 m2))) by now rewrite E0.
  pose proof (narrowed_rows m1 k N D HN Hfit) as HN1'.
  pose proof (narrowed_cols m1 k N D HD Hfit) as HD1'.
  pose proof (narrowed_rows m2 k N D HN2 Hfit) as HN2'.
  pose proof (narrowed_cols m2 k N D HD2 Hfit) as HD2'.
  destruct (Nat.eq_dec N 0) as [HN0|HN0].
  - exists (@grad_empty F SF UF1 N D m1), (@grad_empty F SF UF2 N D m2).
    split; [now apply (grad_run_empty m1 axis k)|].
    split; [now apply (grad_run_empty m2 axis k)|].
    simpl. rewrite E0. f_equal.
    rewrite (numel_collapsed m1 k N D HN HD), HN0. simpl.
    transitivity (@nil F); [|symmetry]; apply length_zero_iff_nil, length_resized.
  - exists (@grad_final F SF UF1 N D m1), (@grad_final F SF UF2 N D m2).
    split; [now apply (grad_run_nonempty m1 axis k)|].
    split; [apply (grad_run_nonempty m2 axis k); auto; now rewrite E0|].
    simpl. rewrite E0. f_equal.
    now rewrite <- (grad_dX_prefix N D _ (storage (in1 m2))), E1, grad_dX_prefix.
Qed.

End StateIndependence.

(** ** The gradient as a function of dY, in exact arithmetic *)

Section GradientAlgebra.
Context {F : Type} {SF : Scalar F} {UF : Allocator F}.
Hypothesis Fring : ring_theory Fzero Fone Fadd Fmul Fsub Fopp (@eq F).

Add Ring Fr3 : Fring.

Lemma big_sum_combined (n : nat) (y d1 d2 : nat -> F) (a : F) :
  big_sum n (fun j => (y j * (a * d1 j + d2 j))%sc)
  = (a * big_sum n (fun j => (y j * d1 j)%sc)
     + big_sum n (fun j => (y j * d2 j)%sc))%sc.
Proof.
  induction n as [|n IH]; simpl.
  - ring.
  - rewrite IH. ring.
Qed.

Lemma big_sum_plus_const (n : nat) (y d : nat -> F) (c : F) :
  big_sum n (fun j => (y j * (d j + c))%sc)
  = (big_sum n (fun j => (y j * d j)%sc) + c * big_sum n y)%sc.
Proof.
  induction n as [|n IH]; simpl.
  - ring.
  - rewrite IH. ring.
Qed.

(** X8.  In exact arithmetic (the scalars form a commutative ring) the
    gradient operator is linear in dY: for a fixed Y with N >= 1 whose
    sizes N, D and N * D are below 2^31, when dY3 = a * dY1 + dY2 element
    by element, the dX computed from dY3 is a * (the dX computed from dY1)
    + (the dX computed from dY2). *)
Theorem backward_is_linear_in_dY (m : machine F) (axis : Z) (k N D : nat)
    (dY1 dY2 dY3 : Tensor F) (a : F) :
  canonical_axis_index_ axis (length (dims (in0 m))) = Done k ->
  N = size_to_dim_ k (dims (in0 m)) ->
  D = size_from_dim_ k (dims (in0 m)) ->
  fits_int N D ->
  1 <= N ->
  tensor_wf (in0 m) -> instance_ok m ->
  N * D <= length (storage dY1) ->
  N * D <= length (storage dY2) ->
  N * D <= length (storage dY3) ->
  (forall i j, i < N -> j < D ->
     entry dY3 D i j = (a * entry dY1 D i j + entry dY2 D i j)%sc) ->
  exists m1 m2 m3,
    SoftmaxGradientOp.RunOnDevice axis (rebind (in0 m) dY1 (out0 m) m)
    = Done (true, m1) /\
    SoftmaxGradientOp.RunOnDevice axis (rebind (in0 m) dY2 (out0 m) m)
    = Done (true, m2) /\
    SoftmaxGradientOp.RunOnDevice axis (rebind (in0 m) dY3 (out0 m) m)
    = Done (true, m3) /\
    forall i j, i < N -> j < D ->
      entry (out0 m3) D i j
      = (a * entry (out0 m1) D i j + entry (out0 m2) D i j)%sc.
Proof.
  intros Hk HN HD Hfit HN1 HwfY Hok H1 H2 H3 Hlin.
  pose proof (ring_rounding_free Fring) as Hsteps.
  destruct (grad_run_entries Hsteps (rebind (in0 m) dY1 (out0 m) m) axis k N D)
    as (Hr1 & _ & He1); auto; [lia|].
  destruct (grad_run_entries Hsteps (rebind (in0 m) dY2 (out0 m) m) axis k N D)
    as (Hr2 & _ & He2); auto; [lia|].
  destruct (grad_run_entries Hsteps (rebind (in0 m) dY3 (out0 m) m) axis k N D)
    as (Hr3 & _ & He3); auto; [lia|].
  do 3 eexists. split; [exact Hr1|]. split; [exact Hr2|]. split; [exact Hr3|].
  intros i j Hi Hj. rewrite He1, He2, He3 by assumption.
  cbn [rebind in0 in1].
  assert (Hc : row_dot (in0 m) dY3 D i
               = (a * row_dot (in0 m) dY1 D i + row_dot (in0 m) dY2 D i)%sc).
  { unfold row_dot.
    rewrite <- (big_sum_combined D (fun c => entry (in0 m) D i c)
                  (fun c => entry dY1 D i c) (fun c => entry dY2 D i c)).
    apply big_sum_ext. intros c Hc. now rewrite Hlin. }
  rewrite Hc, Hlin by assumption. ring.
Qed.

(** X9.  In exact arithmetic, adding a constant to a row of dY does not
    change that row of dX when the row of Y sums to 1: for a fixed Y with
    N >= 1 whose sizes N, D and N * D are below 2^31, if
    dY2[i,j] = dY1[i,j] + c for every j of a row i whose Y entries sum to
    1, the dX computed from dY2 and the one computed from dY1 agree on
    row i. *)
Theorem backward_ignores_row_offsets_of_dY (m : machine F) (axis : Z) (k N D : nat)
    (dY1 dY2 : Tensor F) :
  canonical_axis_index_ axis (length (dims (in0 m))) = Done k ->
  N = size_to_dim_ k (dims (in0 m)) ->
  D = size_from_dim_ k (dims (in0 m)) ->
  fits_int N D ->
  1 <= N ->
  tensor_wf (in0 m) -> instance_ok m ->
  N * D <= length (storage dY1) ->
  N * D <= length (storage dY2) ->
  exists m1 m2,
    SoftmaxGradientOp.RunOnDevice axis (rebind (in0 m) dY1 (out0 m) m)
    = Done (true, m1) /\
    SoftmaxGradientOp.RunOnDevice axis (rebind (in0 m) dY2 (out0 m) m)
    = Done (true, m2) /\
    forall (i : nat) (c : F), i < N ->
      row_total (in0 m) D i = Fone ->
      (forall j, j < D -> entry dY2 D i j = (entry dY1 D i j + c)%sc) ->
      forall j, j < D -> entry (out0 m2) D i j = entry (out0 m1) D i j.
Proof.
  intros Hk HN HD Hfit HN1 HwfY Hok H1 H2.
  pose proof (ring_rounding_free Fring) as Hsteps.
  destruct (grad_run_entries Hsteps (rebind (in0 m) dY1 (out0 m) m) axis k N D)
    as (Hr1 & _ & He1); auto; [lia|].
  destruct (grad_run_entries Hsteps (rebind (in0 m) dY2 (out0 m) m) axis k N D)
    as (Hr2 & _ & He2); auto; [lia|].
  do 2 eexists. split; [exact Hr1|]. split; [exact Hr2|].
  intros i c Hi Hrow Hoff j Hj. rewrite He1, He2 by assumption.
  cbn [rebind in0 in1].
  assert (Hc : row_dot (in0 m) dY2 D i = (row_dot (in0 m) dY1 D i + c)%sc).
  { unfold row_dot.
    rewrite (big_sum_ext D _ (fun c0 => (entry (in0 m) D i c0
                                          * (entry dY1 D i c0 + c))%sc))
      by (intros c0 Hc0; now rewrite Hoff).
    rewrite (big_sum_plus_const D (fun c0 => entry (in0 m) D i c0)
               (fun c0 => entry dY1 D i c0)).
    change (big_sum D (fun c0 => entry (in0 m) D i c0))
      with (row_total (in0 m) D i).
    rewrite Hrow. ring. }
  rewrite Hc, Hoff by assumption. ring.
Qed.

End GradientAlgebra.

(** ** The gradient operator on the output of the forward operator *)

Section ForwardBackward.
Context {UR : Allocator R}.
Open Scope R_scope.

Lemma fwd_final_entry (m : machine R) (N D i j : nat) :
  length (storage (in0 m)) = (N * D)%nat -> (i < N)%nat -> (j < D)%nat ->
  entry (out0 (fwd_final N D m)) D i j
  = exp (entry (in0 m) D i j - fwd_rowmax (storage (in0 m)) D i)
    / big_sum D (fun c => exp (entry (in0 m) D i c
                               - fwd_rowmax (storage (in0 m)) D i)).
Proof.
  intros Hx Hi Hj. set (x := storage (in0 m)) in *.
  assert (Hrow : length (row_of x D i) = D) by now apply (length_row_of x N).
  unfold entry at 1. simpl.
  rewrite (nth_flat_map_rows _ D N)
    by (auto; intros; unfold fwd_Y_row, fwd_exp_row;
        rewrite !length_map; now apply (length_row_of _ N)).
  unfold fwd_Y_row. fold x.
  rewrite (nth_indep _ 0 (Fdiv 0 (fwd_scale x D i)))
    by (unfold fwd_exp_row; rewrite !length_map, Hrow; exact Hj).
  rewrite (map_nth (fun e => Fdiv e (fwd_scale x D i))).
  rewrite (nth_exp_row x N) by assumption.
  unfold fwd_scale, SoftmaxOp.row_sum. rewrite row_sum_big_sum.
  unfold fwd_exp_row at 1. rewrite length_map, Hrow.
  real_ops. f_equal.
  apply big_sum_ext. intros c Hc. now rewrite (nth_exp_row x N).
Qed.

Lemma fwd_final_row_total (m : machine R) (N D i : nat) :
  length (storage (in0 m)) = (N * D)%nat -> (i < N)%nat -> (1 <= D)%nat ->
  row_total (out0 (fwd_final N D m)) D i = 1.
Proof.
  intros Hx Hi HD1. unfold row_total.
  set (mi := fwd_rowmax (storage (in0 m)) D i).
  set (s := big_sum D (fun c => exp (entry (in0 m) D i c - mi))).
  rewrite (big_sum_ext D _ (fun j => exp (entry (in0 m) D i j - mi) / s))
    by (intros j Hj; now apply fwd_final_entry).
  rewrite big_sum_div. fold s.
  assert (Hpos : forall c, (c < D)%nat -> 0 < exp (entry (in0 m) D i c - mi))
    by (intros; apply exp_pos).
  destruct (big_sum_pos D _ Hpos) as [_ Hsle].
  specialize (Hsle 0%nat ltac:(lia)). specialize (Hpos 0%nat ltac:(lia)).
  fold s in Hsle. unfold Rdiv. apply Rinv_r. lra.
Qed.

(** X10.  Forward, then backward.  In exact real arithmetic, for every
    input X with N >= 1 and D >= 1 whose sizes N, D and N * D are below
    2^31: the forward operator returns Y; the
    gradient operator (an instance of its own, in any of its states)
    invoked with the same axis on that Y and on any dY holding at least
    as many elements returns a dX of the shape of X, and every row of dX
    sums to 0.  No assumption is made on Y: that its rows sum to 1 is
    what the forward operator provides.  ([SoftmaxCPU] is as section 4.2
    of the spec describes it.) *)
Theorem backward_of_forward_rows_sum_to_zero (mf mg : machine R) (axis : Z)
    (k N D : nat) (dY : Tensor R) :
  canonical_axis_index_ axis (length (dims (in0 mf))) = Done k ->
  N = size_to_dim_ k (dims (in0 mf)) ->
  D = size_from_dim_ k (dims (in0 mf)) ->
  fits_int N D ->
  (1 <= N)%nat -> (1 <= D)%nat ->
  tensor_wf (in0 mf) ->
  instance_ok mf -> instance_ok mg ->
  (N * D <= length (storage dY))%nat ->
  exists mf' mg',
    SoftmaxOp.RunOnDevice axis mf = Done (true, mf') /\
    SoftmaxGradientOp.RunOnDevice axis (rebind (out0 mf') dY (out0 mg) mg)
    = Done (true, mg') /\
    dims (out0 mg') = dims (in0 mf) /\
    forall i, (i < N)%nat -> row_total (out0 mg') D i = 0.
Proof.
  intros Hk HN HD Hfit HN1 HD1 HwfX Hokf Hokg HdY.
  assert (Hx : length (storage (in0 mf)) = (N * D)%nat).
  { rewrite <- (numel_collapsed mf k N D HN HD). exact HwfX. }
  exists (fwd_final N D mf).
  set (g := rebind (out0 (fwd_final N D mf)) dY (out0 mg) mg).
  assert (HwfY : tensor_wf (in0 g)).
  { unfold tensor_wf. simpl.
    rewrite (length_flat_map_rows _ D), (numel_collapsed mf k N D HN HD);
      [reflexivity|].
    intros i Hi. unfold fwd_Y_row, fwd_exp_row. rewrite !length_map.
    now apply (length_row_of _ N). }
  destruct (grad_run_entries (@ring_rounding_free R Scalar_R RTheory) g axis k N D)
    as (Hrun & _ & Hent); auto; [lia|].
  exists (grad_final N D g).
  split; [apply (fwd_run_nonempty mf axis k); auto; lia|].
  split; [exact Hrun|]. split; [reflexivity|].
  intros i Hi. unfold row_total.
  rewrite (big_sum_ext D _
             (fun j => (entry (in0 g) D i j
                        * (entry (in1 g) D i j - row_dot (in0 g) (in1 g) D i))%sc))
    by (intros j Hj; now apply Hent).
  rewrite (@big_sum_shifted R Scalar_R RTheory D (fun j => entry (in0 g) D i j)
             (fun j => entry (in1 g) D i j)).
  change (big_sum D (fun j => entry (in0 g) D i j)) with (row_total (in0 g) D i).
  change (big_sum D (fun j => (entry (in0 g) D i j * entry (in1 g) D i j)%sc))
    with (row_dot (in0 g) (in1 g) D i).
  change (row_total (in0 g) D i)
    with (row_total (out0 (fwd_final N D mf)) D i).
  rewrite fwd_final_row_total by assumption. real_ops. ring.
Qed.

End ForwardBackward.

(** ** The cost inference function *)

Section CostFacts.
Context {OperatorDef DataType : Type}.
Variable sz : Z.

Lemma size_to_dim_all (ds : list nat) :
  size_to_dim_ (length ds) ds = size_of_dims ds.
Proof. unfold size_to_dim_. now rewrite firstn_all. Qed.

Lemma size_of_dims_zero (ds : list nat) :
  size_of_dims ds = 0 <-> In 0 ds.
Proof.
  induction ds as [|d ds IH]; simpl.
  - split; [discriminate | contradiction].
  - rewrite Nat.mul_eq_0, IH. reflexivity.
Qed.

Lemma size_of_dims_perm (ds ds' : list nat) :
  Permutation ds ds' -> size_of_dims ds = size_of_dims ds'.
Proof.
  induction 1; simpl; lia.
Qed.

(** X12.  For an input whose element count fits an [int64_t]: the cost
    is zero flops exactly when one of the dimensions of the input is 0,
    and then no byte is counted as read or written. *)
Theorem cost_is_zero_iff_a_dimension_is_zero (def : OperatorDef)
    (ds : list nat) (dt : DataType) :
  (Z.of_nat (size_of_dims ds) < 2 ^ 63)%Z ->
  exists c,
    CostInferenceForSoftmax sz def [mkTensorShape ds dt] = Passed c /\
    (flops c = 0%Z <-> In 0 ds) /\
    (In 0 ds -> bytes_read c = 0%Z /\ bytes_written c = 0%Z).
Proof.
  intros Hfits. eexists. split; [reflexivity|].
  cbn [flops bytes_read bytes_written shape_dims].
  rewrite size_to_dim_all. unfold uint64 at 1 3 5.
  rewrite Z.mod_small by lia. rewrite <- size_of_dims_zero. split; [lia|].
  intros ->. now split.
Qed.

(** X13.  The cost depends on the dimensions of the input as a multiset
    only: two shapes whose dimensions are permutations of each other (and
    whose element count fits an [int64_t], beyond which the product in
    the code overflows) get the same cost, whatever their element types,
    and whatever the operator definitions (so, whatever the axis).  In
    particular the bytes counted do not depend on the element type. *)
Theorem cost_ignores_order_type_and_arguments (def def' : OperatorDef)
    (ds ds' : list nat) (dt dt' : DataType) :
  (Z.of_nat (size_of_dims ds) < 2 ^ 63)%Z ->
  Permutation ds ds' ->
  CostInferenceForSoftmax sz def [mkTensorShape ds dt]
  = CostInferenceForSoftmax sz def' [mkTensorShape ds' dt'].
Proof.
  intros _ Hp. unfold CostInferenceForSoftmax. cbn [shape_dims].
  now rewrite !size_to_dim_all, (size_of_dims_perm ds ds' Hp).
Qed.

End CostFacts.

Section CostOfARun.
Context {OperatorDef DataType : Type}.
Context {F : Type} {SF : Scalar F} {EF : ScalarExp F} {UF : Allocator F}.

(** X14.  The cost counts what the forward operator writes.  Whenever
    the forward [RunOnDevice] returns on an input X whose element count
    fits an [int64_t], the cost inferred for the shape of X has as many
    flops as the output Y holds elements, which is N * D for the
    collapsed shape of the invocation; the bytes read and the bytes
    written are both that count times [sizeof(X.data_type())], modulo
    2^64; no parameter byte is counted. *)
Theorem cost_counts_the_elements_of_Y (sz : Z) (def : OperatorDef)
    (dt : DataType) (axis : Z) (m : machine F) (b : bool) (m' : machine F) :
  SoftmaxOp.RunOnDevice axis m = Done (b, m') ->
  (Z.of_nat (size_of_dims (dims (in0 m))) < 2 ^ 63)%Z ->
  exists (c : Cost) (k : nat),
    CostInferenceForSoftmax sz def [mkTensorShape (dims (in0 m)) dt] = Passed c /\
    canonical_axis_index_ axis (length (dims (in0 m))) = Done k /\
    flops c = Z.of_nat (length (storage (out0 m'))) /\
    flops c = Z.of_nat (size_to_dim_ k (dims (in0 m))
                        * size_from_dim_ k (dims (in0 m))) /\
    bytes_read c = uint64 (flops c * sz) /\
    bytes_written c = uint64 (flops c * sz) /\
    params_bytes c = 0%Z.
Proof.
  intros Hrun Hfits.
  destruct (run_has_axis_fwd _ _ _ _ Hrun) as [k Hk].
  destruct (fwd_run_kept m axis k b m' Hk Hrun) as (Hshape & _).
  destruct (Hshape Output_0) as [_ Hl]. simpl in Hl.
  rewrite length_resized in Hl.
  eexists. exists k. split; [reflexivity|]. split; [exact Hk|].
  cbn [flops bytes_read bytes_written params_bytes shape_dims].
  rewrite size_to_dim_all, Hl, size_split.
  unfold uint64 at 1 2. rewrite Z.mod_small by lia. repeat split.
Qed.

End CostOfARun.

(** ** The forward operator and the collapsed view *)

Section CollapsedView.
Context {F : Type} {SF : Scalar F} {EF : ScalarExp F}.

(** X15.  The forward operator sees its input through the collapsed
    (N, D) view only.  Two invocations whose inputs hold the same
    elements and whose dimensions and axes collapse to the same (N, D)
    return outputs holding the same elements, each with the dimensions of
    its own input: whatever the dimensions themselves, the contents of
    the scratch members and of Y before the invocation, and the
    allocator.  N = 0 and D = 0 are included; N, D and N * D are below
    2^31.  ([SoftmaxCPU] is as section 4.2 of the spec describes it.) *)
Theorem forward_sees_only_the_collapsed_view (UF1 UF2 : Allocator F)
    (m1 m2 : machine F) (axis1 axis2 : Z) (k1 k2 N D : nat) :
  canonical_axis_index_ axis1 (length (dims (in0 m1))) = Done k1 ->
  canonical_axis_index_ axis2 (length (dims (in0 m2))) = Done k2 ->
  N = size_to_dim_ k1 (dims (in0 m1)) -> D = size_from_dim_ k1 (dims (in0 m1)) ->
  N = size_to_dim_ k2 (dims (in0 m2)) -> D = size_from_dim_ k2 (dims (in0 m2)) ->
  fits_int N D ->
  tensor_wf (in0 m1) ->
  storage (in0 m2) = storage (in0 m1) ->
  instance_ok m1 -> instance_ok m2 ->
  exists m1' m2',
    @SoftmaxOp.RunOnDevice F SF EF UF1 axis1 m1 = Done (true, m1') /\
    @SoftmaxOp.RunOnDevice F SF EF UF2 axis2 m2 = Done (true, m2') /\
    storage (out0 m2') = storage (out0 m1') /\
    dims (out0 m1') = dims (in0 m1) /\ dims (out0 m2') = dims (in0 m2).
Proof.
  intros Hk1 Hk2 HN1 HD1 HN2 HD2 Hfit Hwf1 Es Hok1 Hok2.
  assert (Hwf2 : tensor_wf (in0 m2)).
  { unfold tensor_wf in *. rewrite Es, Hwf1.
    now rewrite (numel_collapsed m1 k1 N D), (numel_collapsed m2 k2 N D). }
  pose proof (narrowed_rows m1 k1 N D HN1 Hfit) as HN1'.
  pose proof (narrowed_cols m1 k1 N D HD1 Hfit) as HD1'.
  pose proof (narrowed_rows m2 k2 N D HN2 Hfit) as HN2'.
  pose proof (narrowed_cols m2 k2 N D HD2 Hfit) as HD2'.
  destruct (Nat.eq_dec N 0) as [HN0|HN0]; [|destruct (Nat.eq_dec D 0) as [HD0|HD0]].
  1, 2: exists (@fwd_degenerate F SF UF1 N D m1), (@fwd_degenerate F SF UF2 N D m2);
    (split; [apply (fwd_run_degenerate m1 axis1 k1); auto|]);
    (split; [apply (fwd_run_degenerate m2 axis2 k2); auto|]);
    (split; [|split; reflexivity]); simpl;
    rewrite (numel_collapsed m1 k1 N D), (numel_collapsed m2 k2 N D) by assumption;
    replace (N * D) with 0 by nia;
    (transitivity (@nil F); [|symmetry]); apply length_zero_iff_nil, length_resized.
  exists (@fwd_final F SF EF UF1 N D m1), (@fwd_final F SF EF UF2 N D m2).
  split; [now apply (fwd_run_nonempty m1 axis1 k1)|].
  split; [now apply (fwd_run_nonempty m2 axis2 k2)|].
  split; [|split; reflexivity]. simpl. now rewrite Es.
Qed.

End CollapsedView.

(** *** The further properties on concrete inputs *)

Lemma grad_example_runs :
  SoftmaxGradientOp.RunOnDevice 1 grad_example
  = Done (true, grad_final 2 2 grad_example).
Proof.
  apply (grad_run_nonempty grad_example 1 1);
    try reflexivity; try discriminate; try (simpl; lia);
    try (repeat split; simpl; lia).
  apply fresh_instance_ok.
Defined.

Lemma output_takes_shape_of_input_witness :
  SoftmaxOp.RunOnDevice 1 fwd_example = Done (true, fwd_final 1 3 fwd_example) /\
  dims (out0 (fwd_final 1 3 fwd_example)) = dims (in0 fwd_example) /\
  length (storage (out0 (fwd_final 1 3 fwd_example)))
  = size_of_dims (dims (in0 fwd_example)).
Proof.
  split; [exact fwd_example_runs|].
  apply (output_takes_shape_of_input 1 fwd_example true (fwd_final 1 3 fwd_example)).
  left. exact fwd_example_runs.
Defined.

Lemma inputs_are_read_only_witness :
  SoftmaxOp.RunOnDevice 1 fwd_example = Done (true, fwd_final 1 3 fwd_example) /\
  in0 (fwd_final 1 3 fwd_example) = in0 fwd_example /\
  in1 (fwd_final 1 3 fwd_example) = in1 fwd_example.
Proof.
  split; [exact fwd_example_runs|].
  apply (inputs_are_read_only 1 fwd_example true (fwd_final 1 3 fwd_example)).
  left. exact fwd_example_runs.
Defined.

Lemma backward_never_touches_rowmax_witness :
  SoftmaxGradientOp.RunOnDevice 1 grad_example
  = Done (true, grad_final 2 2 grad_example) /\
  m_rowmax (grad_final 2 2 grad_example) = m_rowmax grad_example /\
  exists evs,
    trace (grad_final 2 2 grad_example) = trace grad_example ++ evs /\
    Forall (fun e => written e <> rowmax_) evs.
Proof.
  split; [exact grad_example_runs|].
  apply (backward_never_touches_rowmax 1 grad_example true).
  exact grad_example_runs.
Defined.

Lemma backward_reads_past_short_dY_witness :
  SoftmaxGradientOp.RunOnDevice 1 grad_short_dY = Undefined <->
  length (storage (in1 grad_short_dY)) < 1 * 2.
Proof.
  apply (backward_reads_past_short_dY grad_short_dY 1 1 1 2);
    try reflexivity; try lia; try (repeat split; simpl; lia).
  apply fresh_instance_ok.
Defined.

Lemma fwd_example_again_ok : instance_ok fwd_example_again.
Proof.
  unfold instance_ok, tensor_wf. simpl. repeat split. repeat constructor.
Defined.

Lemma fwd_example_runs_again :
  SoftmaxOp.RunOnDevice 1 fwd_example_again
  = Done (true, fwd_final 1 3 fwd_example_again).
Proof.
  apply (fwd_run_nonempty _ 1 1); try reflexivity; try discriminate;
    try (repeat split; simpl; lia).
  apply fwd_example_again_ok.
Defined.

Lemma second_run_reuses_scratch_witness :
  (SoftmaxOp.RunOnDevice 1 fwd_example
   = Done (true, fwd_final 1 3 fwd_example) /\
   SoftmaxOp.RunOnDevice 1 fwd_example_again
   = Done (true, fwd_final 1 3 fwd_example_again)) /\
  m_sum_multiplier (fwd_final 1 3 fwd_example_again)
  = m_sum_multiplier (fwd_final 1 3 fwd_example) /\
  exists evs,
    trace (fwd_final 1 3 fwd_example_again)
    = trace (fwd_final 1 3 fwd_example) ++ evs /\
    filter (fun e => negb (is_kernel_call e)) evs
    = [EvResize Output_0 (dims (in0 fwd_example))].
Proof.
  split; [split; [exact fwd_example_runs | exact fwd_example_runs_again]|].
  apply (second_run_reuses_scratch fwd_example 1 1 1 1 (in0 fwd_example)
           empty_tensor (out0 (fwd_final 1 3 fwd_example)) true true
           (fwd_final 1 3 fwd_example) (fwd_final 1 3 fwd_example_again));
    try reflexivity.
  - unfold fwd_example. apply reach_fresh.
  - left. split; [exact fwd_example_runs | exact fwd_example_runs_again].
Defined.

Lemma grad_example_used_ok : instance_ok grad_example_used.
Proof.
  unfold instance_ok, tensor_wf. simpl. repeat split. repeat constructor.
Defined.

Lemma backward_result_depends_only_on_inputs_witness :
  exists m1' m2',
    SoftmaxGradientOp.RunOnDevice 1 grad_example = Done (true, m1') /\
    SoftmaxGradientOp.RunOnDevice 1 grad_example_used = Done (true, m2') /\
    out0 m2' = out0 m1'.
Proof.
  apply (@backward_result_depends_only_on_inputs Z Scalar_Z Allocator_Z Allocator_Z
           grad_example grad_example_used 1 1 2 2);
    try reflexivity; try (simpl; lia); try (repeat split; simpl; lia).
  - apply grad_example_ok.
  - apply grad_example_used_ok.
Defined.

Lemma dY_sum_entries (i j : nat) :
  i < 2 -> j < 2 ->
  entry dY_sum 2 i j = (2%Z * entry dY_one 2 i j + entry dY_two 2 i j)%sc.
Proof.
  intros Hi Hj. destruct i as [|[|i]]; destruct j as [|[|j]]; try lia; reflexivity.
Defined.

Lemma backward_is_linear_in_dY_witness :
  exists m1 m2 m3,
    SoftmaxGradientOp.RunOnDevice 1
      (rebind (in0 grad_example) dY_one (out0 grad_example) grad_example)
    = Done (true, m1) /\
    SoftmaxGradientOp.RunOnDevice 1
      (rebind (in0 grad_example) dY_two (out0 grad_example) grad_example)
    = Done (true, m2) /\
    SoftmaxGradientOp.RunOnDevice 1
      (rebind (in0 grad_example) dY_sum (out0 grad_example) grad_example)
    = Done (true, m3) /\
    forall i j, i < 2 -> j < 2 ->
      entry (out0 m3) 2 i j
      = (2%Z * entry (out0 m1) 2 i j + entry (out0 m2) 2 i j)%sc.
Proof.
  apply (@backward_is_linear_in_dY Z Scalar_Z Allocator_Z Zth grad_example 1 1 2 2
           dY_one dY_two dY_sum 2%Z);
    try reflexivity; try (simpl; lia); try (repeat split; simpl; lia).
  - apply grad_example_ok.
  - exact dY_sum_entries.
Defined.

Lemma backward_ignores_row_offsets_of_dY_witness :
  exists m1 m2,
    SoftmaxGradientOp.RunOnDevice 1
      (rebind (in0 grad_example) dY_one (out0 grad_example) grad_example)
    = Done (true, m1) /\
    SoftmaxGradientOp.RunOnDevice 1
      (rebind (in0 grad_example) dY_shifted (out0 grad_example) grad_example)
    = Done (true, m2) /\
    forall (i : nat) (c : Z), i < 2 ->
      row_total (in0 grad_example) 2 i = Fone ->
      (forall j, j < 2 -> entry dY_shifted 2 i j = (entry dY_one 2 i j + c)%sc) ->
      forall j, j < 2 -> entry (out0 m2) 2 i j = entry (out0 m1) 2 i j.
Proof.
  apply (@backward_ignores_row_offsets_of_dY Z Scalar_Z Allocator_Z Zth grad_example
           1 1 2 2 dY_one dY_shifted);
    try reflexivity; try (simpl; lia); try (repeat split; simpl; lia).
  apply grad_example_ok.
Defined.

Lemma backward_of_forward_rows_sum_to_zero_witness :
  exists mf' mg',
    SoftmaxOp.RunOnDevice 1 fwd_example = Done (true, mf') /\
    SoftmaxGradientOp.RunOnDevice 1
      (rebind (out0 mf') (mkTensor [1; 3] [1; 0; 0]%R) empty_tensor
         (fresh empty_tensor empty_tensor empty_tensor))
    = Done (true, mg') /\
    dims (out0 mg') = dims (in0 fwd_example) /\
    forall i, i < 1 -> row_total (out0 mg') 3 i = 0%R.
Proof.
  apply (backward_of_forward_rows_sum_to_zero fwd_example
           (fresh empty_tensor empty_tensor empty_tensor) 1 1 1 3
           (mkTensor [1; 3] [1; 0; 0]%R));
    try reflexivity; try (simpl; lia); try (repeat split; simpl; lia);
    apply fresh_instance_ok.
Defined.

Lemma cost_is_zero_iff_a_dimension_is_zero_witness :
  exists c,
    CostInferenceForSoftmax 4 tt [mkTensorShape [2; 0; 3] tt] = Passed c /\
    (flops c = 0%Z <-> In 0 [2; 0; 3]) /\
    (In 0 [2; 0; 3] -> bytes_read c = 0%Z /\ bytes_written c = 0%Z).
Proof.
  apply (cost_is_zero_iff_a_dimension_is_zero 4%Z tt [2; 0; 3] tt). reflexivity.
Defined.

Lemma cost_ignores_order_type_and_arguments_witness :
  CostInferenceForSoftmax 4 tt [mkTensorShape [2; 3] true]
  = CostInferenceForSoftmax 4 tt [mkTensorShape [3; 2] false].
Proof.
  apply (cost_ignores_order_type_and_arguments 4%Z tt tt [2; 3] [3; 2] true false).
  - reflexivity.
  - apply perm_swap.
Defined.

Lemma cost_counts_the_elements_of_Y_witness :
  SoftmaxOp.RunOnDevice 1 fwd_example = Done (true, fwd_final 1 3 fwd_example) /\
  exists (c : Cost) (k : nat),
    CostInferenceForSoftmax 4 tt [mkTensorShape (dims (in0 fwd_example)) tt]
    = Passed c /\
    canonical_axis_index_ 1 (length (dims (in0 fwd_example))) = Done k /\
    flops c = Z.of_nat (length (storage (out0 (fwd_final 1 3 fwd_example)))) /\
    flops c = Z.of_nat (size_to_dim_ k (dims (in0 fwd_example))
                        * size_from_dim_ k (dims (in0 fwd_example))) /\
    bytes_read c = uint64 (flops c * 4) /\
    bytes_written c = uint64 (flops c * 4) /\
    params_bytes c = 0%Z.
Proof.
  split; [exact fwd_example_runs|].
  apply (cost_counts_the_elements_of_Y 4%Z tt tt 1 fwd_example true
           (fwd_final 1 3 fwd_example) fwd_example_runs).
  reflexivity.
Defined.

Lemma forward_sees_only_the_collapsed_view_witness :
  exists m1' m2',
    SoftmaxOp.RunOnDevice 1 fwd_example = Done (true, m1') /\
    SoftmaxOp.RunOnDevice 2 fwd_example_3d = Done (true, m2') /\
    storage (out0 m2') = storage (out0 m1') /\
    dims (out0 m1') = dims (in0 fwd_example) /\
    dims (out0 m2') = dims (in0 fwd_example_3d).
Proof.
  apply (@forward_sees_only_the_collapsed_view R Scalar_R ScalarExp_R
           Allocator_R Allocator_R fwd_example fwd_example_3d 1 2 1 2 1 3);
    try reflexivity; try (repeat split; simpl; lia); apply fresh_instance_ok.
Defined.
